(** * Course Assistant: sync router, course card and chat page

    A shallow embedding of the parts of the course-assistant repository that
    its specification talks about, and the properties proved about them.

    - [Database]: the rows of [models.database] that the routers read and
      write (courses, documents, processing queue).
    - [Sync], [SyncFiles]: [backend/routers/sync.py] (status query, clear
      trigger, retry trigger, file handlers and the background tasks they
      schedule).
    - [Upload], [CardState]: the course card component ([validateFile],
      [handleFileUpload], the upload list and the file count);
      [ValidationRule]: the validation rule of the specification, which
      the component is compared with.
    - [HomePage], [UploadRoute]: the page that holds the cards and the
      route the card posts to.
    - [Chat], [ChatRequest]: the course page ([handleSendMessage]).
    - [Queue], [VectorIndex], [Ingestion]: the services the routers call
      ([services.ingestion]). Their code is not part of the source tree at
      hand, so they are modelled from the specification, and every such
      definition says so.

    Definitions come first, theorems after. *)

From Stdlib Require Import ZArith NArith QArith String Ascii List Lia.
From stdpp Require Import base decidable option list strings gmap fin_maps pretty.

Local Open Scope string_scope.
Local Open Scope nat_scope.

(* ===================================================================== *)
(** * Part I: the embedding                                               *)
(* ===================================================================== *)

(** ** Database rows ([models.database]) *)

Module Database.

(** [Course]: the routers test [Course.id], [Course.is_active] and read
    [course.last_sync] (already in ISO format here). *)
Record Course := mkCourse {
  c_id : string;
  c_is_active : bool;
  c_last_sync : option string
}.

(** [Document]: only [Document.course_id] is read by the sync router. *)
Record Document := mkDocument {
  d_course_id : string;
  d_filename : string
}.

(** Modelled from the spec: the [ProcessingQueue] table declaration is in
    [models/database.py], which is not in the source tree. The columns are
    those the router touches ([course_id], [file_path], [filename],
    [status], [retry_count]) and those of the specification's
    ProcessingQueueItem (job identity, [last_error]). [status] is the
    string the code compares and assigns; columns are not nullable. *)
Record ProcessingQueueItem := mkItem {
  job_id : nat;
  course_id : string;
  file_path : string;
  filename : string;
  status : string;
  retry_count : nat;
  last_error : option string
}.

Definition set_status (s : string) (it : ProcessingQueueItem) : ProcessingQueueItem :=
  mkItem (job_id it) (course_id it) (file_path it) (filename it) s
         (retry_count it) (last_error it).

Definition set_retry_count (n : nat) (it : ProcessingQueueItem) : ProcessingQueueItem :=
  mkItem (job_id it) (course_id it) (file_path it) (filename it) (status it)
         n (last_error it).

(** The database a session sees: three tables, rows in insertion order. *)
Record Db := mkDb {
  courses : list Course;
  documents : list Document;
  processing_queue : list ProcessingQueueItem
}.

Definition with_queue (q : list ProcessingQueueItem) (db : Db) : Db :=
  mkDb (courses db) (documents db) q.

(** What a handler can raise. *)
Inductive Exn :=
| HTTPException (status_code : nat) (detail : string)
| MultipleResultsFound.

(** [str(e)] for the exceptions above. *)
Definition str_exn (e : Exn) : string :=
  match e with
  | HTTPException _ d => d
  | MultipleResultsFound => "Multiple rows were found when one or none was required"
  end.

(** [Result.scalar_one_or_none()]: no row gives [None], one row gives it,
    more rows raise. *)
Definition scalar_one_or_none {A} (rows : list A) : Exn + option A :=
  match rows with
  | [] => inr None
  | [r] => inr (Some r)
  | _ :: _ :: _ => inl MultipleResultsFound
  end.

(** [select(Course).where(Course.id == course_id, Course.is_active == True)] *)
Definition select_active_course (cid : string) (db : Db) : list Course :=
  filter (λ c, c_id c = cid ∧ c_is_active c = true) (courses db).

Definition HTTP_404_NOT_FOUND : nat := 404.
Definition HTTP_500_INTERNAL_SERVER_ERROR : nat := 500.

End Database.

(** ** The sync router ([backend/routers/sync.py]) *)

(** The source tree holds this router as its compiled module
    ([sync.cpython-310.pyc]); the definitions follow the instructions,
    names and constants of the handlers' code objects. *)

Module Sync.
Import Database.

(** The JSON body of [GET /status/{course_id}]. [queue_status] is the
    inner dict, keyed by the strings of the source. *)
Record SyncStatusBody := mkSyncStatus {
  ss_course_id : string;
  ss_status : string;
  ss_last_sync : option string;
  ss_total_documents : nat;
  ss_queue_status : gmap string nat
}.

(** [[item for item in queue_items if item.status == s]] *)
Definition with_status (s : string) (items : list ProcessingQueueItem)
  : list ProcessingQueueItem :=
  filter (λ it, status it = s) items.

(** [get_sync_status(course_id, db)]: 404 when no active course has the
    id; every other exception becomes a 500. The database is only read.
    The locals are [total_queued = len(queue_items)] and [completed],
    [processing], [failed], each the [len] of a list comprehension
    comparing [item.status] with that constant; [status_text] is ['idle'],
    ['processing'] if [processing > 0], else ['queued'] if
    [total_queued > completed]. The inner dict is built with the constant
    keys [('total', 'completed', 'processing', 'failed')]. *)
Definition get_sync_status (cid : string) (db : Db) : Exn + SyncStatusBody :=
  match scalar_one_or_none (select_active_course cid db) with
  | inl e =>
      inl (HTTPException HTTP_500_INTERNAL_SERVER_ERROR
             ("Failed to get sync status: " ++ str_exn e))
  | inr None => inl (HTTPException HTTP_404_NOT_FOUND "Course not found")
  | inr (Some course) =>
      let queue_items := filter (λ it, course_id it = cid) (processing_queue db) in
      let documents := filter (λ d, d_course_id d = cid) (documents db) in
      let total_queued := length queue_items in
      let completed := length (with_status "completed" queue_items) in
      let processing := length (with_status "processing" queue_items) in
      let failed := length (with_status "failed" queue_items) in
      let status_text :=
        if decide (0 < processing) then "processing"
        else if decide (completed < total_queued) then "queued"
        else "idle" in
      inr (mkSyncStatus cid status_text (c_last_sync course) (length documents)
             (<["total" := total_queued]>
              (<["completed" := completed]>
               (<["processing" := processing]>
                (<["failed" := failed]> (∅ : gmap string nat))))))
  end.

(** The statement the clear handler hands to [db.execute]: a plain [str]
    constant, not a [text()] construct (the module imports only [select]
    from sqlalchemy). *)
Definition DELETE_STATEMENT : string :=
  "DELETE FROM processing_queue WHERE course_id = :course_id AND status != 'processing'".

(** What that statement asks for, written as the rows that stay. *)
Definition delete_not_processing (cid : string) (q : list ProcessingQueueItem)
  : list ProcessingQueueItem :=
  filter (λ it, ¬ (course_id it = cid ∧ status it ≠ "processing")) q.

Section Clear.
(** [str(e)] of the [ArgumentError] with which [AsyncSession.execute]
    refuses a plain [str] statement: the project pins SQLAlchemy 2.0.23
    ([requirements.txt]), where a textual statement has to be declared
    with [text()]. The library is not part of the source tree, so the
    wording of its message is left open. *)
Variable argument_error_text : string → string.

(** [clear_processing_queue(course_id, db)]: the result and the database
    after the request. With an active course the handler reaches
    [db.execute(<str>, {"course_id": course_id})], which raises before
    anything is sent to the database; [except Exception] rolls back and
    answers 500. The [commit] and the ['Processing queue cleared'] answer
    that follow the call are never reached. *)
Definition clear_processing_queue (cid : string) (db : Db) : (Exn + string) * Db :=
  match scalar_one_or_none (select_active_course cid db) with
  | inl e =>
      (inl (HTTPException HTTP_500_INTERNAL_SERVER_ERROR
              ("Failed to clear queue: " ++ str_exn e)), db)
  | inr None => (inl (HTTPException HTTP_404_NOT_FOUND "Course not found"), db)
  | inr (Some _) =>
      (inl (HTTPException HTTP_500_INTERNAL_SERVER_ERROR
              ("Failed to clear queue: " ++ argument_error_text DELETE_STATEMENT)), db)
  end.
End Clear.

(** A task handed to [background_tasks.add_task]. *)
Inductive BackgroundTask :=
| retry_failed_processing (course : string) (file_paths : list string)
| process_single_file (course : string) (path : string) (name : string).

(** The JSON body of [POST /retry-failed/{course_id}]. *)
Record RetryBody := mkRetryBody {
  rb_message : string;
  rb_files : option (list string)
}.

(** The rows [select(ProcessingQueue).where(course_id == cid,
    status == 'failed')] returns. *)
Definition is_failed_of (cid : string) (it : ProcessingQueueItem) : Prop :=
  course_id it = cid ∧ status it = "failed".

#[global] Instance is_failed_of_dec cid it : Decision (is_failed_of cid it).
Proof. unfold is_failed_of. apply _. Defined.

(** The loop body: [item.status = 'queued'; item.retry_count += 1]
    (in the code object: [LOAD_CONST 'queued'], [STORE_ATTR status], then
    [LOAD_ATTR retry_count], [LOAD_CONST 1], [INPLACE_ADD],
    [STORE_ATTR retry_count]). *)
Definition retry_item (it : ProcessingQueueItem) : ProcessingQueueItem :=
  set_retry_count (retry_count it + 1) (set_status "queued" it).

(** [retry_failed_files(course_id, background_tasks, db)]: the body, the
    database after the commit and the tasks added. The selected rows are
    ORM objects, so the loop updates the table rows themselves. *)
Definition retry_failed_files (cid : string) (db : Db)
  : RetryBody * Db * list BackgroundTask :=
  let failed_items := filter (is_failed_of cid) (processing_queue db) in
  match failed_items with
  | [] => (mkRetryBody "No failed files to retry" None, db, [])
  | _ :: _ =>
      let q' := (λ it, if decide (is_failed_of cid it) then retry_item it else it)
                  <$> processing_queue db in
      (mkRetryBody ("Retrying " ++ pretty (length failed_items) ++ " failed files")
                   (Some (filename <$> failed_items)),
       with_queue q' db,
       [retry_failed_processing cid (file_path <$> failed_items)])
  end.

(** The last path segment, [file_path.split('/')[-1]]. *)
Fixpoint basename_from (acc : string) (s : string) : string :=
  match s with
  | EmptyString => acc
  | String c r =>
      if Ascii.eqb c "/"%char then basename_from EmptyString r
      else basename_from (acc ++ String c EmptyString) r
  end.

(** [retry_failed_processing(course_id, file_paths)]: one
    [process_single_file] per path, in order. *)
Definition run_retry_failed_processing (cid : string) (file_paths : list string)
  : list BackgroundTask :=
  (λ p, process_single_file cid p (basename_from EmptyString p)) <$> file_paths.

(** The database after a retry request. *)
Definition db_after_retry (cid : string) (db : Db) : Db :=
  snd (fst (retry_failed_files cid db)).

(** What the retry loop does to one row: the status becomes ["queued"],
    [retry_count] grows by one, every other column stays. *)
Definition retried (it : ProcessingQueueItem) : ProcessingQueueItem :=
  mkItem (job_id it) (course_id it) (file_path it) (filename it)
         "queued" (S (retry_count it)) (last_error it).

(** The course lookup of the handlers finds the course: exactly one
    active row has the id. *)
Definition active_course (cid : string) (db : Db) : Prop :=
  ∃ c, select_active_course cid db = [c].

(** The number of queue items of a course that are in a given state. *)
Definition items_in_state (cid s : string) (db : Db) : nat :=
  length (filter (λ it, course_id it = cid ∧ status it = s) (processing_queue db)).

End Sync.

(** ** JavaScript strings, as far as the components use them *)

(** A string stands for the JavaScript string of which it is the UTF-8
    encoding, byte by byte; an ASCII character is one byte. *)

Module JsString.

(** [s.split(sep)] for a one-character separator: never empty. *)
Fixpoint split_go (sep : ascii) (cur : string) (s : string) : list string :=
  match s with
  | EmptyString => [cur]
  | String c r =>
      if Ascii.eqb c sep then cur :: split_go sep EmptyString r
      else split_go sep (cur ++ String c EmptyString) r
  end.

Definition split (sep : ascii) (s : string) : list string :=
  split_go sep EmptyString s.

(** [arr.pop()], the value only: [undefined] on an empty array. *)
Definition pop {A} (arr : list A) : option A := last arr.

(** [c.toLowerCase()] on the letters [A]-[Z]. The bytes of a character
    outside ASCII are kept as they are, where [toLowerCase()] maps the
    letters of every script: on a string that is not [ascii_only] the
    result can differ from the code's. None of the file types the card
    compares an extension with has a letter that is the lower case of a
    character outside ASCII, so membership in those lists is the same. *)
Definition lower_char (c : ascii) : ascii :=
  let n := nat_of_ascii c in
  if (65 <=? n) && (n <=? 90) then ascii_of_nat (n + 32) else c.

Fixpoint toLowerCase (s : string) : string :=
  match s with
  | EmptyString => EmptyString
  | String c r => String (lower_char c) (toLowerCase r)
  end.

(** [arr.join(sep)] *)
Fixpoint join (sep : string) (arr : list string) : string :=
  match arr with
  | [] => EmptyString
  | [x] => x
  | x :: r => x ++ sep ++ join sep r
  end.

(** Whether every character of the string is an ASCII character. *)
Fixpoint ascii_only (s : string) : bool :=
  match s with
  | EmptyString => true
  | String c r => (nat_of_ascii c <? 128) && ascii_only r
  end.

(** The one-byte characters [trim()] strips: tab, line feed, vertical tab,
    form feed, carriage return and space. *)
Definition is_space (c : ascii) : bool :=
  let n := nat_of_ascii c in
  (n =? 32) || ((9 <=? n) && (n <=? 13)).

(** The three-byte characters [trim()] strips, by the bytes of their
    encoding: U+1680, U+2000 to U+200A, U+2028, U+2029, U+202F, U+205F,
    U+3000 and U+FEFF. *)
Definition is_space3 (c d e : ascii) : bool :=
  let c := nat_of_ascii c in
  let d := nat_of_ascii d in
  let e := nat_of_ascii e in
  ((c =? 225) && (d =? 154) && (e =? 128))
  || ((c =? 226) && (d =? 128)
      && (((128 <=? e) && (e <=? 138)) || (e =? 168) || (e =? 169) || (e =? 175)))
  || ((c =? 226) && (d =? 129) && (e =? 159))
  || ((c =? 227) && (d =? 128) && (e =? 128))
  || ((c =? 239) && (d =? 187) && (e =? 191)).

(** [!s.trim()]: nothing is left after trimming, that is, the string is
    made of white space and line terminators only. Besides the one-byte
    and three-byte characters above these are U+00A0, encoded in the two
    bytes 194 160. *)
Fixpoint blank (s : string) : bool :=
  match s with
  | EmptyString => true
  | String c r =>
      if is_space c then blank r
      else
        match r with
        | EmptyString => false
        | String d r1 =>
            if (nat_of_ascii c =? 194) && (nat_of_ascii d =? 160) then blank r1
            else
              match r1 with
              | EmptyString => false
              | String e r2 => is_space3 c d e && blank r2
              end
        end
  end.

End JsString.

(** ** The course card ([CourseCard]: validation and upload) *)

Module Upload.
Import JsString.

(** A browser [File]: the component reads [name] and [size]. *)
Record File := mkFile { name : string; size : N }.

#[global] Instance File_eq_dec : EqDecision File.
Proof. solve_decision. Defined.

Definition allowedTypes : list string :=
  [".pdf"; ".docx"; ".pptx"; ".xlsx"; ".txt"; ".jpg"; ".jpeg"; ".png";
   ".gif"; ".bmp"; ".tiff"; ".webp"].

Definition maxFileSize : N := 50 * 1024 * 1024.

(** ['.' + file.name.split('.').pop()?.toLowerCase()] *)
Definition extension (file : File) : string :=
  "." ++ match pop (split "."%char (name file)) with
         | Some e => toLowerCase e
         | None => "undefined"
         end.

(** [validateFile(file)]: the error text, or [None] for [null]. *)
Definition validateFile (file : File) : option string :=
  let extension := extension file in
  if negb (bool_decide (extension ∈ allowedTypes)) then
    Some ("File type " ++ extension ++ " not supported. Allowed types: "
          ++ join ", " allowedTypes)
  else if (maxFileSize <? size file)%N then
    Some "File size too large. Maximum size: 50MB"
  else None.

(** What the component does to the outside world. *)
Inductive Effect :=
| toast_error (msg : string)
| toast_success (msg : string)
| fetch_upload (courseId : string) (file : File)
| onFileCountUpdate (courseId : string) (newCount : nat).

Section Component.
(** [course.id], and whether [POST /api/upload] answers [ok] for a file
    (a network error counts as not ok). *)
Variable courseId : string.
Variable response_ok : File → bool.

(** The [forEach] that sorts the files. *)
Definition validFiles (files : list File) : list File :=
  filter (λ f, validateFile f = None) files.

Definition invalidFiles (files : list File) : list string :=
  omap (λ f, match validateFile f with
             | Some error => Some (name f ++ ": " ++ error)
             | None => None
             end) files.

(** [uploadSingleFile]: one request, and whether it succeeded. *)
Definition uploadSingleFile (file : File) : Effect * bool :=
  (fetch_upload courseId file, response_ok file).

(** [handleFileUpload(files)] with [currentFileCount] as state: the
    effects in order and the new count. The progress bars and the modal
    are display state and are left out. *)
Definition handleFileUpload (currentFileCount : nat) (files : list File)
  : list Effect * nat :=
  let invalid := invalidFiles files in
  let valid := validFiles files in
  let errors :=
    match invalid with
    | [] => []
    | _ => [toast_error ("Invalid files:" ++ String "010"%char (join (String "010"%char EmptyString) invalid))]
    end in
  match valid with
  | [] => (errors, currentFileCount)
  | _ =>
      let results := uploadSingleFile <$> valid in
      let successCount := length (filter (λ r, snd r = true) results) in
      if decide (0 < successCount) then
        let newFileCount := currentFileCount + successCount in
        ((errors ++ (fst <$> results)
           ++ [toast_success ("Successfully uploaded " ++ pretty successCount
                              ++ " file" ++ (if decide (1 < successCount) then "s" else EmptyString));
               onFileCountUpdate courseId newFileCount])%list,
         newFileCount)
      else ((errors ++ (fst <$> results))%list, currentFileCount)
  end.
End Component.

End Upload.

(** ** The course page ([CoursePage]: the chat transcript) *)

Module Chat.
Import JsString.

Inductive Role := user | assistant.

Record Message := mkMessage {
  id : string;
  content : string;
  role : Role;
  timestamp : N;
  sources : option (list string)
}.

(** The React state [handleSendMessage] reads and sets. *)
Record State := mkState {
  messages : list Message;
  inputValue : string;
  isLoading : bool
}.

(** How the [fetch] of the chat route ends: a body, read at [now], or
    anything that throws ([!res.ok], a network or JSON error). *)
Inductive Outcome :=
| Answered (response : string) (srcs : option (list string)) (now : N)
| Failed.

(** [Date.now().toString()] *)
Definition toString (n : N) : string := pretty n.

(** Up to the [await]: the guard, then the optimistic append. [None] when
    the handler returns at once. *)
Definition send_begin (now : N) (st : State) : option (Message * State) :=
  if blank (inputValue st) || isLoading st then None
  else
    let userMessage := mkMessage (toString now) (inputValue st) user now None in
    Some (userMessage, mkState (messages st ++ [userMessage])%list EmptyString true).

(** After the [await]: the answer is appended, or the [catch] filters the
    user message out by id; [finally] clears [isLoading]. *)
Definition send_end (userMessage : Message) (o : Outcome) (st : State) : State :=
  match o with
  | Answered response srcs now =>
      let assistantMessage :=
        mkMessage (toString (now + 1)) response assistant now srcs in
      mkState (messages st ++ [assistantMessage])%list (inputValue st) false
  | Failed =>
      mkState (filter (λ m, id m ≠ id userMessage) (messages st))
              (inputValue st) false
  end.

(** [loadChatHistory()], started when the page is mounted:
    [setMessages(data)] with the history the route answers, whenever the
    answer arrives; when the request throws, nothing is set. [data] is
    taken to be a list of messages. *)
Definition loadChatHistory (data : option (list Message)) (st : State) : State :=
  match data with
  | Some history => mkState history (inputValue st) (isLoading st)
  | None => st
  end.

(** [handleSendMessage]. While it waits for the answer the input is
    disabled, so nothing is typed and nothing else is sent; the one update
    that can land is the history of [loadChatHistory], if that request is
    still on its way: [during] is the history that arrives then, if any. *)
Definition handleSendMessage (now : N) (o : Outcome) (during : option (list Message))
    (st : State) : State :=
  match send_begin now st with
  | None => st
  | Some (userMessage, st1) => send_end userMessage o (loadChatHistory during st1)
  end.

(** The guard of [handleSendMessage] lets the send through. *)
Definition sendable (st : State) : Prop :=
  blank (inputValue st) = false ∧ isLoading st = false.

(** The user types into the input box. *)
Definition typing (text : string) (st : State) : State :=
  mkState (messages st) text (isLoading st).

End Chat.

(** ** The Processing Queue (specification, section 4.1) *)

Module Queue.
Import Database.

(** Modelled from the spec: the queue operations live in
    [services/ingestion.py] ([ingestion_service.queue_file],
    [process_file]), which is not in the source tree. The state is the
    durable table, oldest row first, and the next free job id. *)
Record QueueState := mkQueue {
  items : list ProcessingQueueItem;
  next_id : nat
}.

Definition empty : QueueState := mkQueue [] 0.

(** Modelled from the spec: the idempotent key of [enqueue]. An item
    already stands for the file when it has the same [(course_id, file_ref)]
    and [queued] or [processing]. *)
Definition live_for (c f : string) (it : ProcessingQueueItem) : Prop :=
  course_id it = c ∧ file_path it = f
  ∧ (status it = "queued" ∨ status it = "processing").

#[global] Instance live_for_dec c f it : Decision (live_for c f it).
Proof. unfold live_for. apply _. Defined.

(** Modelled from the spec: [enqueue(course_id, file_ref, filename) ->
    job_id] inserts a [queued] item; for a file that is already [queued]
    or [processing] it is a no-op returning the existing job id. *)
Definition enqueue (c f n : string) (q : QueueState) : nat * QueueState :=
  match list_find (live_for c f) (items q) with
  | Some (_, it) => (job_id it, q)
  | None =>
      (next_id q,
       mkQueue (items q ++ [mkItem (next_id q) c f n "queued" 0 None])
               (S (next_id q)))
  end.

(** Modelled from the spec: [claim_next() -> Optional[Job]] moves the
    oldest [queued] item to [processing] in one atomic step and returns
    it; nothing when no item is [queued]. *)
Definition claim_next (q : QueueState) : option ProcessingQueueItem * QueueState :=
  match list_find (λ it, status it = "queued") (items q) with
  | Some (i, it) =>
      let job := set_status "processing" it in
      (Some job, mkQueue (<[i := job]> (items q)) (next_id q))
  | None => (None, q)
  end.

(** Modelled from the spec: the transitions out of [processing] are row
    updates of the job [j]; other rows, and the
    job itself when it is not [processing], stay as they are. *)
Definition from_processing (f : ProcessingQueueItem → ProcessingQueueItem)
    (j : nat) (q : QueueState) : QueueState :=
  mkQueue ((λ it, if decide (job_id it = j ∧ status it = "processing")
                  then f it else it) <$> items q)
          (next_id q).

(** Modelled from the spec: [mark_completed(job_id)] is
    [processing -> completed]. *)
Definition mark_completed (j : nat) (q : QueueState) : QueueState :=
  from_processing (set_status "completed") j q.

(** Modelled from the spec: [mark_failed(job_id, error)] is
    [processing -> failed] if [retry_count + 1 >= max_retries] and
    [processing -> queued] otherwise; it increments [retry_count] and
    records the error. *)
Definition fail_item (max_retries : nat) (err : string)
    (it : ProcessingQueueItem) : ProcessingQueueItem :=
  mkItem (job_id it) (course_id it) (file_path it) (filename it)
         (if decide (max_retries ≤ retry_count it + 1) then "failed" else "queued")
         (retry_count it + 1) (Some err).

(** Modelled from the spec: [mark_failed] is that update on the job when it
    is [processing]. *)
Definition mark_failed (max_retries : nat) (j : nat) (err : string)
    (q : QueueState) : QueueState :=
  from_processing (fail_item max_retries err) j q.

(** Modelled from the spec: [clear(course_id)] removes the items of the
    course that are not [processing]. *)
Definition clear (c : string) (q : QueueState) : QueueState :=
  mkQueue (filter (λ it, ¬ (course_id it = c ∧ status it ≠ "processing")) (items q))
          (next_id q).

(** The explicit reset is the retry trigger of the router: the loop of
    [Sync.retry_failed_files] on the table. *)
Definition retry_failed (c : string) (q : QueueState) : QueueState :=
  mkQueue ((λ it, if decide (Sync.is_failed_of c it) then Sync.retry_item it else it)
             <$> items q)
          (next_id q).

(** Modelled from the spec: the operations of section 4.1 and the retry
    trigger, as labels of the queue's step relation. *)
Inductive Op :=
| Enqueue (c f n : string)
| ClaimNext
| MarkCompleted (j : nat)
| MarkFailed (j : nat) (err : string)
| Clear (c : string)
| RetryFailed (c : string).

Section Steps.
Variable max_retries : nat.

Definition apply_op (o : Op) (q : QueueState) : QueueState :=
  match o with
  | Enqueue c f n => snd (enqueue c f n q)
  | ClaimNext => snd (claim_next q)
  | MarkCompleted j => mark_completed j q
  | MarkFailed j err => mark_failed max_retries j err q
  | Clear c => clear c q
  | RetryFailed c => retry_failed c q
  end.

Fixpoint run (ops : list Op) (q : QueueState) : QueueState :=
  match ops with
  | [] => q
  | o :: rest => run rest (apply_op o q)
  end.

(** The step [o] taken in [q] is a failure of job [j]: [mark_failed]
    on [j] while it is [processing]. *)
Definition fail_event (j : nat) (o : Op) (q : QueueState) : bool :=
  match o with
  | MarkFailed j' _ =>
      bool_decide (j' = j ∧ Exists (λ it, job_id it = j ∧ status it = "processing")
                                   (items q))
  | _ => false
  end.

(** The step [o] taken in [q] resets job [j]: the retry trigger on its
    course while it is [failed]. *)
Definition reset_event (j : nat) (o : Op) (q : QueueState) : bool :=
  match o with
  | RetryFailed c =>
      bool_decide (Exists (λ it, job_id it = j ∧ Sync.is_failed_of c it) (items q))
  | _ => false
  end.

Fixpoint fail_events (j : nat) (ops : list Op) (q : QueueState) : nat :=
  match ops with
  | [] => 0
  | o :: rest =>
      (if fail_event j o q then 1 else 0) + fail_events j rest (apply_op o q)
  end.

Fixpoint reset_events (j : nat) (ops : list Op) (q : QueueState) : nat :=
  match ops with
  | [] => 0
  | o :: rest =>
      (if reset_event j o q then 1 else 0) + reset_events j rest (apply_op o q)
  end.
End Steps.

(** Job ids are unique and below the next free id. *)
Definition wf (q : QueueState) : Prop :=
  NoDup (job_id <$> items q) ∧ ∀ it, it ∈ items q → job_id it < next_id q.

(** Failures are counted by [retry_count]: after [k] failures of job [j]
    its row, if still there, has [retry_count] at least [k]; a job id that
    has not been handed out has no failures. *)
Definition counted (j : nat) (q : QueueState) (k : nat) : Prop :=
  wf q
  ∧ (∀ it, it ∈ items q → job_id it = j → k ≤ retry_count it)
  ∧ (next_id q ≤ j → k = 0).

(** Job [j] has been handed out and every row of it is [failed]. *)
Definition frozen (j : nat) (q : QueueState) : Prop :=
  j < next_id q ∧ ∀ it, it ∈ items q → job_id it = j → status it = "failed".

End Queue.

(** ** The Vector Index adapter (specification, section 4.6) *)

Module VectorIndex.

Definition Vector := list Q.

(** Modelled from the spec: what [upsert] stores under a chunk identity. *)
Record Entry := mkEntry {
  e_course_id : string;
  e_vector : Vector;
  e_text : string;
  e_locator : option string
}.

(** Modelled from the spec: the vector index is an external capability;
    its contents are a map keyed by the chunk identity
    [(document_id, chunk_index)]. *)
Abbreviation Index := (gmap (string * nat) Entry).

(** Modelled from the spec: [upsert(course_id, document_id, chunk_id,
    vector, text, locator)]. *)
Definition upsert (course doc : string) (chunk_id : nat) (v : Vector)
    (text : string) (locator : option string) (idx : Index) : Index :=
  <[(doc, chunk_id) := mkEntry course v text locator]> idx.

(** Modelled from the spec: [delete_by_document(document_id)]. *)
Definition delete_by_document (doc : string) (idx : Index) : Index :=
  filter (λ kv, kv.1.1 ≠ doc) idx.

(** Modelled from the spec: the chunks stored for a document, and the
    stored chunk count. *)
Definition chunks_of_document (doc : string) (idx : Index) : Index :=
  filter (λ kv, kv.1.1 = doc) idx.

Definition chunk_count (doc : string) (idx : Index) : nat :=
  size (chunks_of_document doc idx).

End VectorIndex.

(** ** Chunks (specification, section 3) *)

Module Chunker.

(** Modelled from the spec: what the chunker hands to the ingestion
    service: a chunk with its place in the document, its text and its
    source locator. The chunker itself is not in the source tree. *)
Record Chunk := mkChunk {
  chunk_index : nat;
  chunk_text : string;
  chunk_locator : option string
}.

End Chunker.

(** ** The Ingestion Service (specification, section 4.4) *)

Module Ingestion.
Import VectorIndex.

Inductive IngestError :=
| UnsupportedFormatError
| CorruptContentError
| EmbeddingGatewayError
| VectorIndexError.

Section Service.
(** The capabilities of steps 1 to 3: the extractor and chunker on the
    blob of a file reference, and the embedding gateway. *)
Variable extract_and_chunk : string → IngestError + list Chunker.Chunk.
Variable embed_batch : list string → option (list Vector).

(** Modelled from the spec: upserting the batch, chunk [i] under
    [(doc, first + i)]. *)
Fixpoint upsert_batch (course doc : string) (first : nat)
    (batch : list (Chunker.Chunk * Vector)) (idx : Index) : Index :=
  match batch with
  | [] => idx
  | (c, v) :: rest =>
      upsert_batch course doc (S first) rest
        (upsert course doc first v (Chunker.chunk_text c)
                (Chunker.chunk_locator c) idx)
  end.

(** Modelled from the spec: step 4, "delete any previously stored chunks
    for that document_id before inserting the new set". *)
Definition store_chunks (course doc : string)
    (batch : list (Chunker.Chunk * Vector)) (idx : Index) : Index :=
  upsert_batch course doc 0 batch (delete_by_document doc idx).

(** Modelled from the spec: one ingestion job, steps 2 to 5, all or
    nothing on the index. The result is the chunk count written to the
    document and the index after the job. An answer of the gateway
    that is not one vector per text counts as its failure. *)
Definition ingest (course doc file_ref : string) (idx : Index)
  : IngestError + (nat * Index) :=
  match extract_and_chunk file_ref with
  | inl e => inl e
  | inr chunks =>
      match embed_batch (Chunker.chunk_text <$> chunks) with
      | None => inl EmbeddingGatewayError
      | Some vectors =>
          if decide (length vectors = length chunks) then
            inr (length chunks, store_chunks course doc (zip chunks vectors) idx)
          else inl EmbeddingGatewayError
      end
  end.
End Service.

(** The entry a chunk of a batch is stored as. *)
Definition entry_of (course : string) (cv : Chunker.Chunk * Vector) : Entry :=
  mkEntry course cv.2 (Chunker.chunk_text cv.1) (Chunker.chunk_locator cv.1).

End Ingestion.

(** ** Data for the examples *)

Module Examples.
Import Database.

(** A small database used by the examples: one active course with a
    failed, a processing and a queued item, and a failed item of another
    course. *)
Definition db0 : Db :=
  mkDb [mkCourse "cs101" true None]
       [mkDocument "cs101" "a.pdf"]
       [mkItem 0 "cs101" "up/a.pdf" "a.pdf" "failed" 3 (Some "timeout");
        mkItem 1 "cs101" "up/b.pdf" "b.pdf" "processing" 0 None;
        mkItem 2 "ma201" "up/c.pdf" "c.pdf" "failed" 1 None;
        mkItem 3 "cs101" "up/d.pdf" "d.pdf" "queued" 0 None].

(** One exchange, sent at time 400 and answered at time 1000, after which
    the next message is typed. *)
Definition chat1 : Chat.State :=
  Chat.typing "again"
    (Chat.handleSendMessage 400 (Chat.Answered "hello" None 1000) None
       (Chat.mkState [] "hi" false)).

(** A file reference stands for its text, one chunk per file, and the
    gateway answers one fixed vector per text. *)
Definition demo_extract (ref : string) : Ingestion.IngestError + list Chunker.Chunk :=
  inr [Chunker.mkChunk 0 ref None].

Definition demo_embed (texts : list string) : option (list VectorIndex.Vector) :=
  Some ((λ _, [1%Q]) <$> texts).

End Examples.

(** ** The sync router: the file handlers ([backend/routers/sync.py]) *)

Module SyncFiles.
Import Database.

(** The request model [FileData]. *)
Record FileData := mkFileData {
  courseId : string;
  fd_filename : string;
  path : string;
  downloadUrl : string
}.

(** One entry of [results] in the bulk answer:
    [{"filename": ..., "status": ..., "message": ...}]. *)
Record FileResult := mkFileResult {
  fr_filename : string;
  fr_status : string;
  fr_message : string
}.

(** The JSON body of [POST /bulk-files]. *)
Record BulkBody := mkBulkBody {
  bb_success : bool;
  bb_total_files : nat;
  bb_queued : nat;
  bb_results : list FileResult
}.

(** What the file handlers hand to [background_tasks.add_task]. *)
Inductive FileTask :=
| process_batch_files (files_data : list FileData)
| process_single (task : Sync.BackgroundTask).

(** Whether a path has a [/] in it. *)
Fixpoint has_slash (s : string) : bool :=
  match s with
  | EmptyString => false
  | String c r => Ascii.eqb c "/"%char || has_slash r
  end.

(** The name a scheduled single-file task carries. *)
Definition task_name (t : Sync.BackgroundTask) : option string :=
  match t with
  | Sync.process_single_file _ _ name => Some name
  | Sync.retry_failed_processing _ _ => None
  end.

Section Handlers.
(** [ingestion_service.queue_file(course_id=, file_path=, filename=)]: the
    ingestion service is not in the source tree. The call writes to the
    database and may raise; it gives the exception text, if any, and the
    database after it. *)
Variable queue_file : string → string → string → Db → option string * Db.

(** The body of the [for file_data in files_data] loop of
    [process_bulk_files], threading the database and [results]. An
    exception of the course lookup leaves the loop. *)
Fixpoint bulk_loop (files_data : list FileData) (db : Db) (results : list FileResult)
  : (Exn + list FileResult) * Db :=
  match files_data with
  | [] => (inr results, db)
  | file_data :: rest =>
      match scalar_one_or_none (select_active_course (courseId file_data) db) with
      | inl e => (inl e, db)
      | inr None =>
          bulk_loop rest db
            (results ++ [mkFileResult (fd_filename file_data) "error" "Course not found"])
      | inr (Some _) =>
          match queue_file (courseId file_data) (path file_data)
                           (fd_filename file_data) db with
          | (None, db') =>
              bulk_loop rest db'
                (results ++ [mkFileResult (fd_filename file_data) "queued"
                               "Successfully queued for processing"])
          | (Some e, db') =>
              bulk_loop rest db'
                (results ++ [mkFileResult (fd_filename file_data) "error" e])
          end
      end
  end.

(** [process_bulk_files(files_data, background_tasks, db)]: the answer, the
    tasks added and the database after the request. *)
Definition process_bulk_files (files_data : list FileData) (db : Db)
  : (Exn + BulkBody) * list FileTask * Db :=
  match bulk_loop files_data db [] with
  | (inl e, db') =>
      (inl (HTTPException HTTP_500_INTERNAL_SERVER_ERROR
              ("Bulk processing failed: " ++ str_exn e)), [], db')
  | (inr results, db') =>
      let successful_files := filter (λ r, fr_status r = "queued") results in
      (inr (mkBulkBody true (length files_data) (length successful_files) results),
       match successful_files with
       | [] => []
       | _ => [process_batch_files files_data]
       end,
       db')
  end.

(** [file_ready_for_processing(file_data, background_tasks, db)]: 404
    without an active course; an exception of [queue_file] becomes a 500. *)
Definition file_ready_for_processing (file_data : FileData) (db : Db)
  : (Exn + string) * list FileTask * Db :=
  match scalar_one_or_none (select_active_course (courseId file_data) db) with
  | inl e =>
      (inl (HTTPException HTTP_500_INTERNAL_SERVER_ERROR
              ("Failed to queue file: " ++ str_exn e)), [], db)
  | inr None => (inl (HTTPException HTTP_404_NOT_FOUND "Course not found"), [], db)
  | inr (Some _) =>
      match queue_file (courseId file_data) (path file_data)
                       (fd_filename file_data) db with
      | (Some e, db') =>
          (inl (HTTPException HTTP_500_INTERNAL_SERVER_ERROR
                  ("Failed to queue file: " ++ e)), [], db')
      | (None, db') =>
          (inr ("File '" ++ fd_filename file_data ++ "' queued for processing"),
           [process_single (Sync.process_single_file (courseId file_data)
                              (path file_data) (fd_filename file_data))],
           db')
      end
  end.
End Handlers.

(** [process_batch_files(files_data)]: one [process_single_file] per file,
    in order (an exception of one is printed and the loop goes on). *)
Definition run_process_batch_files (files_data : list FileData)
  : list Sync.BackgroundTask :=
  (λ f, Sync.process_single_file (courseId f) (path f) (fd_filename f)) <$> files_data.

(** The single-file runs a scheduled task amounts to. *)
Definition single_runs (t : FileTask) : list Sync.BackgroundTask :=
  match t with
  | process_batch_files files_data => run_process_batch_files files_data
  | process_single (Sync.retry_failed_processing c paths) =>
      Sync.run_retry_failed_processing c paths
  | process_single t' => [t']
  end.

End SyncFiles.

(** ** The course card: upload list, icons and the file count *)

Module CardState.
Import JsString Upload.

(** Whether a name has a dot in it. *)
Fixpoint has_dot (s : string) : bool :=
  match s with
  | EmptyString => false
  | String c r => Ascii.eqb c "."%char || has_dot r
  end.

(** The files of the upload requests of a run, in the order issued. *)
Definition uploaded_files (effects : list Effect) : list File :=
  omap (λ e, match e with fetch_upload _ f => Some f | _ => None end) effects.

(** The count a run hands to [setCurrentFileCount] and
    [onFileCountUpdate], if it does. *)
Definition count_update (effects : list Effect) : option nat :=
  last (omap (λ e, match e with onFileCountUpdate _ n => Some n | _ => None end) effects).

(** The two icons of [getFileIcon]. *)
Inductive Icon := ImageIcon | FileText.

Definition imageTypes : list string :=
  ["jpg"; "jpeg"; "png"; "gif"; "bmp"; "tiff"; "webp"].

(** [getFileIcon(filename)]:
    [imageTypes.includes(filename.split('.').pop()?.toLowerCase() || '')]. *)
Definition getFileIcon (filename : string) : Icon :=
  let extension := toLowerCase <$> pop (split "."%char filename) in
  if bool_decide (default EmptyString extension ∈ imageTypes) then ImageIcon
  else FileText.

Inductive UploadStatus := uploading | success | error.

#[export] Instance UploadStatus_eq_dec : EqDecision UploadStatus.
Proof. solve_decision. Defined.

(** An entry of the [uploadFiles] state. *)
Record UploadFile := mkUploadFile {
  uf_file : File;
  uf_id : string;
  uf_status : UploadStatus;
  uf_progress : nat;
  uf_error : option string
}.

(** How [fetch('/api/upload')] ends for the card: an [ok] response, a
    response that is not [ok] with the [detail] of its JSON body (if it is
    a string), or anything that throws (no connection, a body that is not
    JSON). *)
Inductive FetchResult :=
| resp_ok
| resp_not_ok (detail : option string)
| fetch_throws.

Definition is_ok (r : FetchResult) : bool :=
  match r with resp_ok => true | _ => false end.

(** [prev.map(f => f.id === id ? g(f) : f)] *)
Definition update_entries (id : string) (g : UploadFile → UploadFile)
    (prev : list UploadFile) : list UploadFile :=
  (λ f, if decide (uf_id f = id) then g f else f) <$> prev.

(** [{ ...f, progress: 10 }] *)
Definition started (f : UploadFile) : UploadFile :=
  mkUploadFile (uf_file f) (uf_id f) (uf_status f) 10 (uf_error f).

(** The entry after the response: [{ ...f, status: 'success', progress:
    100 }], or [{ ...f, status: 'error', error: ... }] with
    [errorData.detail || 'Upload failed'] or ['Network error']. *)
Definition finished (r : FetchResult) (f : UploadFile) : UploadFile :=
  match r with
  | resp_ok => mkUploadFile (uf_file f) (uf_id f) success 100 (uf_error f)
  | resp_not_ok detail =>
      mkUploadFile (uf_file f) (uf_id f) error (uf_progress f)
        (Some (match detail with
               | Some d => if String.eqb d EmptyString then "Upload failed" else d
               | None => "Upload failed"
               end))
  | fetch_throws =>
      mkUploadFile (uf_file f) (uf_id f) error (uf_progress f) (Some "Network error")
  end.

Section Uploads.
Variable fetch_result : File → FetchResult.

(** [uploadSingleFile(uploadFile)] on the [uploadFiles] state: the progress
    is set to 10, the request is made, and the entry is marked by its
    outcome. The progress timer is cleared in the statement after it is
    set, so it never ticks. *)
Definition uploadSingleFile_state (uploadFile : UploadFile) (prev : list UploadFile)
  : list UploadFile * bool :=
  let r := fetch_result (uf_file uploadFile) in
  (update_entries (uf_id uploadFile) (finished r)
     (update_entries (uf_id uploadFile) started prev),
   is_ok r).

(** The [for (const uploadFile of uploadFileObjects)] loop: the state and
    [successCount]. *)
Fixpoint upload_loop (todo : list UploadFile) (st : list UploadFile) (successCount : nat)
  : list UploadFile * nat :=
  match todo with
  | [] => (st, successCount)
  | uploadFile :: rest =>
      let '(st', ok) := uploadSingleFile_state uploadFile st in
      upload_loop rest st' (if ok then S successCount else successCount)
  end.

(** [setUploadFiles(uploadFileObjects)], then the loop. *)
Definition run_uploads (uploadFileObjects : list UploadFile) : list UploadFile * nat :=
  upload_loop uploadFileObjects uploadFileObjects 0.
End Uploads.

(** [uploadFileObjects]: one entry per valid file, with the ids drawn for
    them ([Date.now()] and [Math.random()]). *)
Definition uploadFileObjects (ids : list string) (valid : list File) : list UploadFile :=
  zip_with (λ f id, mkUploadFile f id uploading 0 None) valid ids.

(** [removeUploadFile(id)]: [prev.filter(f => f.id !== id)]. *)
Definition removeUploadFile (id : string) (prev : list UploadFile) : list UploadFile :=
  filter (λ f, uf_id f ≠ id) prev.

(** The card between two renders: the count of its first render
    ([course.fileCount]) and [currentFileCount]. *)
Record Card := mkCard {
  initialFileCount : nat;
  currentFileCount : nat
}.

(** The two ways files reach [handleFileUpload]. *)
Inductive CardAction :=
| drop (files : list File)
| pick (files : list File).

Section Card.
Variable courseId : string.
Variable response_ok : File → bool.

(** [handleDrop] is [useCallback(..., [])]: every drop runs the closure of
    the first render, whose [handleFileUpload] sees the first render's
    [currentFileCount]. [handleFileInputChange] is made anew at each
    render and sees the current one. Both call [handleFileUpload] only for
    a non-empty list; the count changes only through
    [setCurrentFileCount(newFileCount)]. *)
Definition card_step (a : CardAction) (card : Card) : list Effect * Card :=
  let run count files :=
    match files with
    | [] => ([], card)
    | _ =>
        let effects := fst (handleFileUpload courseId response_ok count files) in
        (effects,
         mkCard (initialFileCount card)
                (default (currentFileCount card) (count_update effects)))
    end in
  match a with
  | drop files => run (initialFileCount card) files
  | pick files => run (currentFileCount card) files
  end.
End Card.

End CardState.

(** ** The validation rule of the specification *)

Module ValidationRule.
Import JsString Upload.

(** Modelled from the spec: the extension of a file name. The enqueue
    trigger (section 6) tests "the extension" against the supported set
    and does not say how it is read off the name; it is taken in the
    usual sense, the text after the last dot of the name, and a name
    without a dot has no extension. This is the rule [validateFile] is
    compared with, not a function of the component. *)
Fixpoint spec_extension (name : string) : option string :=
  match name with
  | EmptyString => None
  | String c r =>
      match spec_extension r with
      | Some e => Some e
      | None => if Ascii.eqb c "."%char then Some r else None
      end
  end.

(** Modelled from the spec: the enqueue trigger "rejects with
    ValidationError if extension is not in the supported set or size
    exceeds the configured maximum (e.g., 50 MB)". The supported set and
    the maximum are the component's; letter case is ignored as the
    component ignores it. *)
Definition spec_rejects (file : File) : Prop :=
  match spec_extension (name file) with
  | Some e => "." ++ toLowerCase e ∉ allowedTypes
  | None => True
  end
  ∨ (maxFileSize < size file)%N.

End ValidationRule.

(** ** The home page ([HomePage]: the course list) *)

Module HomePage.

Record Course := mkCourse {
  id : string;
  name : string;
  code : string;
  fileCount : nat;
  moduleCount : nat
}.

(** [handleFileCountUpdate(courseId, newCount)]:
    [prevCourses.map(course => course.id === courseId
       ? { ...course, fileCount: newCount } : course)]. *)
Definition handleFileCountUpdate (courseId : string) (newCount : nat)
    (prevCourses : list Course) : list Course :=
  (λ course, if decide (id course = courseId)
             then mkCourse (id course) (name course) (code course) newCount
                           (moduleCount course)
             else course) <$> prevCourses.

(** The page reacting to what a card does: each [onFileCountUpdate] of the
    run is a call of [handleFileCountUpdate]. *)
Definition after_effects (effects : list Upload.Effect) (courses : list Course)
  : list Course :=
  foldl (λ cs e, match e with
                 | Upload.onFileCountUpdate c n => handleFileCountUpdate c n cs
                 | _ => cs
                 end) courses effects.

End HomePage.

(** ** The upload route ([app/api/upload/route.ts]) *)

Module UploadRoute.

(** A JSON object with string fields. *)
Abbreviation Json := (gmap string string).

(** A response of the backend: its status and its body, [None] when the
    body is not JSON ([response.json()] throws). *)
Record BackendResponse := mkBackendResponse {
  br_status : nat;
  br_body : option Json
}.

(** What the route answers. *)
Record RouteResponse := mkRouteResponse {
  rr_status : nat;
  rr_body : Json
}.

(** [response.ok]: a status in 200..299. *)
Definition ok (status : nat) : bool := (200 <=? status) && (status <=? 299).

(** [POST(request)]: the form data is forwarded; a backend answer that is
    not [ok] is passed on with its status, an [ok] one with status 200;
    anything that throws (no connection, a body that is not JSON) is
    answered with 500 and [{ error: 'Failed to upload files' }]. [None]
    stands for a [fetch] that throws. *)
Definition POST (backend : option BackendResponse) : RouteResponse :=
  match backend with
  | Some response =>
      match br_body response with
      | Some data =>
          if ok (br_status response) then mkRouteResponse 200 data
          else mkRouteResponse (br_status response) data
      | None => mkRouteResponse 500 {["error" := "Failed to upload files"]}
      end
  | None => mkRouteResponse 500 {["error" := "Failed to upload files"]}
  end.

(** What the card makes of the route's answer: [response.ok], else
    [errorData.detail]. *)
Definition card_sees (r : RouteResponse) : CardState.FetchResult :=
  if ok (rr_status r) then CardState.resp_ok
  else CardState.resp_not_ok (rr_body r !! "detail").

End UploadRoute.

(** ** The chat request of the course page *)

Module ChatRequest.
Import JsString Chat.

(** The JSON body [handleSendMessage] posts to the chat route. *)
Record Body := mkBody {
  message : string;
  session_id : option string
}.

(** [{ message: inputValue, session_id: messages.length > 0 ?
    messages[0].id : undefined }], from the state of the render the
    handler was made in. *)
Definition request_body (st : State) : Body :=
  mkBody (inputValue st) (id <$> head (messages st)).

End ChatRequest.

(* ===================================================================== *)
(** * Part II: theorems                                                   *)
(* ===================================================================== *)

Import Database Examples.

(** ** Strings *)

Section StringFacts.

Lemma append_String (a : ascii) (s t : string) : String a s ++ t = String a (s ++ t).
Proof. reflexivity. Qed.

Lemma append_empty_l (t : string) : EmptyString ++ t = t.
Proof. reflexivity. Qed.

Lemma append_char_assoc (acc : string) (c : ascii) (r : string) :
  (acc ++ String c EmptyString) ++ r = acc ++ String c r.
Proof.
  induction acc as [|a acc IH]; rewrite ?append_String, ?append_empty_l; [done|].
  by rewrite IH.
Qed.

Lemma append_empty_r (s : string) : s ++ EmptyString = s.
Proof.
  induction s as [|a s IH]; rewrite ?append_String, ?append_empty_l; [done|].
  by rewrite IH.
Qed.

End StringFacts.

(** ** The sync router *)

Section SyncTheorems.
Import Sync.

Example retry_failed_files_db0 :
  retry_failed_files "cs101" db0 =
  (mkRetryBody "Retrying 1 failed files" (Some ["a.pdf"]),
   mkDb [mkCourse "cs101" true None]
        [mkDocument "cs101" "a.pdf"]
        [mkItem 0 "cs101" "up/a.pdf" "a.pdf" "queued" 4 (Some "timeout");
         mkItem 1 "cs101" "up/b.pdf" "b.pdf" "processing" 0 None;
         mkItem 2 "ma201" "up/c.pdf" "c.pdf" "failed" 1 None;
         mkItem 3 "cs101" "up/d.pdf" "d.pdf" "queued" 0 None],
   [retry_failed_processing "cs101" ["up/a.pdf"]]).
Proof. vm_compute. reflexivity. Qed.

Example run_retry_failed_processing_db0 :
  run_retry_failed_processing "cs101" ["up/a.pdf"] =
  [process_single_file "cs101" "up/a.pdf" "a.pdf"].
Proof. reflexivity. Qed.

Lemma retry_item_retried it : retry_item it = retried it.
Proof.
  unfold retry_item, retried, set_retry_count, set_status; simpl.
  f_equal. lia.
Qed.

Lemma failed_items_nonempty cid db :
  (∃ it, it ∈ processing_queue db ∧ is_failed_of cid it) →
  filter (is_failed_of cid) (processing_queue db) ≠ [].
Proof.
  intros (it & Hin & Hf) Hnil.
  assert (it ∈ filter (is_failed_of cid) (processing_queue db)) as Hm
    by (apply list_elem_of_filter; done).
  rewrite Hnil in Hm. by apply not_elem_of_nil in Hm.
Qed.

(** C1, as the specification states it: every failed item of the course
    ends up [queued] with its [retry_count] unchanged or back at zero. The
    code does neither: it adds one. Row 0 of [db0] goes from 3 to 4. *)
Lemma retry_count_preserved_or_reset_fails :
  ¬ (∀ cid db i it,
       processing_queue db !! i = Some it → is_failed_of cid it →
       ∃ it', processing_queue (db_after_retry cid db) !! i = Some it'
              ∧ status it' = "queued"
              ∧ (retry_count it' = retry_count it ∨ retry_count it' = 0)).
Proof.
  intros H.
  destruct (H "cs101" db0 0
              (mkItem 0 "cs101" "up/a.pdf" "a.pdf" "failed" 3 (Some "timeout")))
    as (it' & Hit' & _ & Hrc).
  - reflexivity.
  - split; reflexivity.
  - vm_compute in Hit'. injection Hit' as <-. simpl in Hrc.
    destruct Hrc as [Hrc | Hrc]; discriminate Hrc.
Qed.

(** C1 (amended): for a course with at least one [failed] item, the retry
    trigger sets exactly those items to [queued] and increments their
    [retry_count] by one, leaves every other row and table alone, and
    schedules one background task re-processing their file paths. *)
Theorem retry_failed_files_requeues cid db :
  (∃ it, it ∈ processing_queue db ∧ is_failed_of cid it) →
  let failed_items := filter (is_failed_of cid) (processing_queue db) in
  let db' := db_after_retry cid db in
  (∀ i it, processing_queue db !! i = Some it →
     processing_queue db' !! i =
       Some (if decide (is_failed_of cid it) then retried it else it))
  ∧ length (processing_queue db') = length (processing_queue db)
  ∧ courses db' = courses db ∧ documents db' = documents db
  ∧ snd (retry_failed_files cid db) =
      [retry_failed_processing cid (file_path <$> failed_items)]
  ∧ rb_files (fst (fst (retry_failed_files cid db))) =
      Some (filename <$> failed_items).
Proof.
  intros Hex. apply failed_items_nonempty in Hex.
  unfold db_after_retry, retry_failed_files.
  destruct (filter (is_failed_of cid) (processing_queue db)) as [|f fs] eqn:E;
    [done|]. cbn [fst snd with_queue processing_queue courses documents rb_files].
  repeat split.
  - intros i it Hi. rewrite list_lookup_fmap, Hi. simpl.
    case_decide; [by rewrite retry_item_retried | done].
  - by rewrite length_fmap.
Qed.

Lemma retry_failed_files_requeues_witness :
  (∃ it, it ∈ processing_queue db0 ∧ is_failed_of "cs101" it)
  ∧ processing_queue (db_after_retry "cs101" db0) !! 0 =
      Some (mkItem 0 "cs101" "up/a.pdf" "a.pdf" "queued" 4 (Some "timeout")).
Proof.
  assert (∃ it, it ∈ processing_queue db0 ∧ is_failed_of "cs101" it) as Hex.
  { exists (mkItem 0 "cs101" "up/a.pdf" "a.pdf" "failed" 3 (Some "timeout")).
    split; [apply list_elem_of_here | split; reflexivity]. }
  split; [exact Hex|].
  destruct (retry_failed_files_requeues "cs101" db0 Hex) as (Hrow & _).
  exact (Hrow 0 _ eq_refl).
Defined.

(** C2: the clear handler at the example database. The course is active
    and has a failed and a queued item, which the statement of the handler
    asks to delete, leaving the processing item and the item of the other
    course. The handler answers 500 and the table is as it was: nothing is
    removed. *)
Theorem clear_processing_queue_deletes_nothing (argument_error_text : string → string) :
  active_course "cs101" db0
  ∧ clear_processing_queue argument_error_text "cs101" db0 =
      (inl (HTTPException 500
              ("Failed to clear queue: " ++ argument_error_text DELETE_STATEMENT)),
       db0)
  ∧ delete_not_processing "cs101" (processing_queue db0) =
      [mkItem 1 "cs101" "up/b.pdf" "b.pdf" "processing" 0 None;
       mkItem 2 "ma201" "up/c.pdf" "c.pdf" "failed" 1 None]
  ∧ processing_queue (snd (clear_processing_queue argument_error_text "cs101" db0))
    ≠ delete_not_processing "cs101" (processing_queue db0).
Proof.
  split; [eexists; reflexivity|]. split; [reflexivity|]. split; [reflexivity|].
  discriminate.
Qed.

(** C4, as the specification states it: the body has a count for each of
    [queued], [processing], [completed] and [failed]. The code builds the
    keys [total], [completed], [processing], [failed]; there is no
    [queued] entry. *)
Lemma status_counts_four_states_fails :
  ¬ (∀ cid db, active_course cid db →
       ∃ body, get_sync_status cid db = inr body
         ∧ ∀ s, s ∈ ["queued"; "processing"; "completed"; "failed"] →
                ss_queue_status body !! s = Some (items_in_state cid s db)).
Proof.
  intros H.
  destruct (H "cs101" db0) as (body & Hb & Hs).
  - eexists; reflexivity.
  - specialize (Hs "queued" (list_elem_of_here _ _)).
    vm_compute in Hb. injection Hb as <-. vm_compute in Hs. discriminate Hs.
Qed.

(** [total] counts the items of every state: in [db0] the course has three
    items and one of them is [queued]. *)
Example get_sync_status_total_db0 :
  (∃ body, get_sync_status "cs101" db0 = inr body
           ∧ ss_queue_status body !! "total" = Some 3)
  ∧ items_in_state "cs101" "queued" db0 = 1.
Proof. split; [eexists; split; vm_compute; reflexivity | reflexivity]. Qed.

(** C4 (amended): for a course, the status query returns the counts
    [total], [completed], [processing] and [failed] and no others;
    [total] is the number of all queue items of the course and each of the
    other three is the number of its items in that state. *)
Theorem get_sync_status_counts cid db :
  active_course cid db →
  ∃ body, get_sync_status cid db = inr body
    ∧ ss_queue_status body !! "total" =
        Some (length (filter (λ it, course_id it = cid) (processing_queue db)))
    ∧ (∀ s, s ∈ ["completed"; "processing"; "failed"] →
            ss_queue_status body !! s = Some (items_in_state cid s db))
    ∧ (∀ k, is_Some (ss_queue_status body !! k) ↔
            k ∈ ["total"; "completed"; "processing"; "failed"]).
Proof.
  intros [c Hc]. unfold get_sync_status. rewrite Hc.
  eexists; split; [reflexivity|]. cbn [ss_queue_status].
  assert (∀ s, length (with_status s
                 (filter (λ it, course_id it = cid) (processing_queue db)))
               = items_in_state cid s db) as Hcnt.
  { intros s. unfold with_status, items_in_state.
    rewrite list_filter_filter. f_equal. apply list_filter_iff.
    intros it. tauto. }
  rewrite !Hcnt. split; [|split].
  - by rewrite lookup_insert_eq.
  - intros s Hs. set_unfold in Hs.
    destruct Hs as [-> | [-> | [-> | []]]]; by simplify_map_eq.
  - intros k. rewrite !lookup_insert_is_Some', lookup_empty.
    rewrite !elem_of_cons, elem_of_nil.
    split; intros H; repeat (destruct H as [H|H]); auto 6;
      by destruct H.
Qed.

Lemma get_sync_status_counts_witness :
  active_course "cs101" db0
  ∧ ∃ body, get_sync_status "cs101" db0 = inr body
      ∧ ss_queue_status body !! "total" = Some 3.
Proof.
  assert (active_course "cs101" db0) as Ha by (eexists; reflexivity).
  split; [exact Ha|].
  destruct (get_sync_status_counts "cs101" db0 Ha) as (body & Hb & Ht & _).
  exists body. split; [exact Hb | exact Ht].
Defined.

End SyncTheorems.

(** ** The course card *)

Section UploadTheorems.
Import JsString Upload CardState ValidationRule.

Example extension_upper : extension (mkFile "Notes.v2.PDF" 10) = ".pdf".
Proof. reflexivity. Qed.

Example validateFile_exe :
  validateFile (mkFile "setup.exe" 10) =
  Some "File type .exe not supported. Allowed types: .pdf, .docx, .pptx, .xlsx, .txt, .jpg, .jpeg, .png, .gif, .bmp, .tiff, .webp".
Proof. reflexivity. Qed.

(** The extension is the text after the last dot, and the whole name when
    there is no dot. *)
Example validateFile_no_dot : validateFile (mkFile "pdf" 10) = None.
Proof. reflexivity. Qed.

Example validateFile_at_limit : validateFile (mkFile "a.pdf" 52428800) = None.
Proof. reflexivity. Qed.

Example validateFile_over_limit :
  validateFile (mkFile "a.pdf" 52428801) =
  Some "File size too large. Maximum size: 50MB".
Proof. reflexivity. Qed.

Example handleFileUpload_mixed :
  handleFileUpload "cs101" (λ _, true) 2
    [mkFile "a.pdf" 10; mkFile "setup.exe" 10] =
  ([toast_error ("Invalid files:" ++ String "010"%char
      "setup.exe: File type .exe not supported. Allowed types: .pdf, .docx, .pptx, .xlsx, .txt, .jpg, .jpeg, .png, .gif, .bmp, .tiff, .webp");
    fetch_upload "cs101" (mkFile "a.pdf" 10);
    toast_success "Successfully uploaded 1 file";
    onFileCountUpdate "cs101" 3], 3).
Proof. vm_compute. reflexivity. Qed.

Lemma validateFile_rejects file :
  is_Some (validateFile file) ↔
  extension file ∉ allowedTypes ∨ (maxFileSize < size file)%N.
Proof.
  unfold validateFile.
  destruct (bool_decide (extension file ∈ allowedTypes)) eqn:Hin; simpl.
  - apply bool_decide_eq_true in Hin.
    destruct (maxFileSize <? size file)%N eqn:Hsz.
    + apply N.ltb_lt in Hsz. split; [by right | by eexists].
    + apply N.ltb_ge in Hsz. split.
      * intros [? [=]].
      * intros [Hn | Hlt]; [contradiction | lia].
  - apply bool_decide_eq_false in Hin. split; [by left | by eexists].
Qed.

Lemma fetch_upload_in_fmap courseId response_ok (l : list File) f :
  fetch_upload courseId f ∈ (fst <$> (uploadSingleFile courseId response_ok <$> l))
  ↔ f ∈ l.
Proof.
  rewrite <- list_fmap_compose. rewrite list_elem_of_fmap. split.
  - intros (x & Hx & Hin). simpl in Hx. by injection Hx as ->.
  - intros Hin. by exists f.
Qed.

Lemma split_go_nonempty sep cur s : split_go sep cur s ≠ [].
Proof.
  revert cur. induction s as [|c s IH]; intros cur; simpl; [done|].
  destruct (Ascii.eqb c sep); [done|apply IH].
Qed.

Lemma last_split_go_cons sep cur cur' s :
  last (cur :: split_go sep cur' s) = last (split_go sep cur' s).
Proof.
  pose proof (split_go_nonempty sep cur' s) as Hne.
  destruct (split_go sep cur' s); [done|apply last_cons_cons].
Qed.

Lemma split_go_no_dot (s cur : string) :
  has_dot s = false → split_go "."%char cur s = [cur ++ s].
Proof.
  revert cur. induction s as [|c s IH]; intros cur Hs; simpl in *.
  - by rewrite append_empty_r.
  - apply orb_false_iff in Hs as [Hc Hs]. rewrite Hc, IH by done.
    by rewrite append_char_assoc.
Qed.

Lemma last_split_go_after_dot (base ext cur : string) :
  last (split_go "."%char cur (base ++ String "."%char ext)) =
  last (split_go "."%char EmptyString ext).
Proof.
  revert cur. induction base as [|c base IH]; intros cur;
    rewrite ?append_String, ?append_empty_l; simpl.
  - apply last_split_go_cons.
  - destruct (Ascii.eqb c "."); [rewrite last_split_go_cons|]; apply IH.
Qed.

(** The optional chaining of [split('.').pop()?.toLowerCase()] never meets
    [undefined]: the extension is a dot and the lower-cased last segment. *)
Lemma extension_last_segment (file : File) :
  ∃ seg, pop (split "."%char (name file)) = Some seg
         ∧ extension file = "." ++ toLowerCase seg.
Proof.
  unfold extension, pop, split.
  destruct (last (split_go "." EmptyString (name file))) as [seg|] eqn:E.
  - by exists seg.
  - apply last_None in E. by apply split_go_nonempty in E.
Qed.

Lemma extension_of_suffix (base ext : string) (sz : N) :
  has_dot ext = false →
  extension (mkFile (base ++ String "."%char ext) sz) = "." ++ toLowerCase ext.
Proof.
  intros Hext. unfold extension, pop, split. cbn [name].
  rewrite last_split_go_after_dot, split_go_no_dot by done. done.
Qed.

Lemma spec_extension_None (n : string) :
  spec_extension n = None ↔ has_dot n = false.
Proof.
  induction n as [|c n IH]; simpl; [done|].
  destruct (spec_extension n) as [e|].
  - split; [done|]. intros [_ Hn]%orb_false_iff. by apply IH in Hn.
  - destruct (Ascii.eqb c "."); simpl; [done|]. by rewrite <- IH.
Qed.

Lemma spec_extension_Some (n e : string) :
  spec_extension n = Some e →
  ∃ base, n = base ++ String "."%char e ∧ has_dot e = false.
Proof.
  revert e. induction n as [|c n IH]; intros e; simpl; [done|].
  destruct (spec_extension n) as [e'|] eqn:E.
  - intros [= ->]. destruct (IH e eq_refl) as (base & -> & Hd).
    exists (String c base). by rewrite append_String.
  - destruct (Ascii.eqb c ".") eqn:Ec; [|done]. intros [= ->].
    apply Ascii.eqb_eq in Ec as ->. exists EmptyString.
    split; [by rewrite append_empty_l|]. by apply spec_extension_None.
Qed.

(** On a name with a dot the component and the rule of the specification
    read the same extension. *)
Lemma extension_is_spec_extension (file : File) (e : string) :
  spec_extension (name file) = Some e → extension file = "." ++ toLowerCase e.
Proof.
  destruct file as [n sz]. cbn [name]. intros (base & -> & Hd)%spec_extension_Some.
  by apply extension_of_suffix.
Qed.

(** [handleFileUpload] issues the upload request for exactly the files
    that pass [validateFile]. *)
Lemma handleFileUpload_uploads_iff
    (courseId : string) (response_ok : File → bool) (count : nat)
    (files : list File) (file : File) :
  fetch_upload courseId file ∈ fst (handleFileUpload courseId response_ok count files)
  ↔ file ∈ files ∧ validateFile file = None.
Proof.
  unfold handleFileUpload.
  set (errs := match invalidFiles files with [] => [] | _ => _ end).
  assert (∀ e, e ∈ errs → e ≠ fetch_upload courseId file) as Herr.
  { intros e He. subst errs. destruct (invalidFiles files); [by apply elem_of_nil in He|].
    apply list_elem_of_singleton in He as ->. discriminate. }
  assert (file ∈ validFiles files ↔ file ∈ files ∧ validateFile file = None) as Hv.
  { unfold validFiles. rewrite list_elem_of_filter. tauto. }
  rewrite <- Hv.
  destruct (validFiles files) as [|v vs] eqn:Ev.
  - simpl. split.
    + intros He. exfalso. by apply (Herr _ He).
    + intros He. by apply elem_of_nil in He.
  - rewrite <- Ev. clear Ev.
    set (up := fst <$> (uploadSingleFile courseId response_ok <$> validFiles files)).
    assert (fetch_upload courseId file ∈ up ↔ file ∈ validFiles files) as Hup
      by apply fetch_upload_in_fmap.
    case_decide; simpl; rewrite !elem_of_app, ?elem_of_cons, ?elem_of_nil, Hup.
    + split; [|tauto]. intros [He | [? | [[=] | [[=] | []]]]]; [|done].
      exfalso. by apply (Herr _ He).
    + split; [|tauto]. intros [He | ?]; [|done].
      exfalso. by apply (Herr _ He).
Qed.

(** C3: the file named [pdf]. It has no extension, so the rule of the
    specification rejects it; [validateFile] takes the whole name for the
    extension and accepts it, and [handleFileUpload] uploads it. On every
    name that has a dot the component and the rule agree. *)
Theorem validateFile_accepts_name_without_dot
    (courseId : string) (response_ok : File → bool) (count : nat) :
  let file := mkFile "pdf" 10 in
  spec_extension (name file) = None
  ∧ spec_rejects file
  ∧ validateFile file = None
  ∧ fetch_upload courseId file
      ∈ fst (handleFileUpload courseId response_ok count [file])
  ∧ ∀ f, is_Some (spec_extension (name f)) →
         (is_Some (validateFile f) ↔ spec_rejects f).
Proof.
  intros file. split; [reflexivity|]. split; [by left|]. split; [reflexivity|].
  split.
  - apply handleFileUpload_uploads_iff. split; [apply list_elem_of_here|reflexivity].
  - intros f [e He]. rewrite validateFile_rejects. unfold spec_rejects.
    rewrite He, (extension_is_spec_extension f e He). done.
Qed.

End UploadTheorems.

(** ** The course page *)

Section ChatTheorems.
Import JsString Chat.

Example chat1_messages :
  messages chat1 =
  [mkMessage "400" "hi" user 400 None;
   mkMessage "1001" "hello" assistant 1000 None].
Proof. vm_compute. reflexivity. Qed.

Lemma filter_id_fresh (l : list Message) (i : string) :
  (∀ m, m ∈ l → id m ≠ i) → filter (λ m, id m ≠ i) l = l.
Proof.
  induction l as [|m l IH]; intros Hf; [done|].
  rewrite filter_cons_True by (apply Hf, list_elem_of_here).
  f_equal. apply IH. intros m' Hm'. apply Hf. by apply list_elem_of_further.
Qed.

(** What the [catch] leaves when nothing else lands during the request:
    the transcript without the messages that carry the id of the new user
    message; the transcript itself when that id is fresh. *)
Lemma failed_send_filters_by_id now st :
  sendable st →
  messages (handleSendMessage now Failed None st) =
    filter (λ m, id m ≠ toString now) (messages st)
  ∧ ((∀ m, m ∈ messages st → id m ≠ toString now) →
     messages (handleSendMessage now Failed None st) = messages st).
Proof.
  intros [Hb Hl]. unfold handleSendMessage, send_begin. rewrite Hb, Hl. simpl.
  rewrite filter_app, filter_cons_False, filter_nil, app_nil_r
    by (simpl; intros Hne; by apply Hne).
  split; [done|]. apply filter_id_fresh.
Qed.

(** C10: a failed send at the example transcript. The answer of the first
    exchange was made at time 1000 and carries the id [Date.now() + 1],
    "1001"; a message sent at time 1001 gets the same id, and when its
    request fails the [catch], which removes by id, takes the earlier
    answer away with the new message. The text that was typed is not put
    back either. *)
Theorem failed_send_drops_earlier_answer :
  sendable chat1
  ∧ messages chat1 =
      [mkMessage "400" "hi" user 400 None;
       mkMessage "1001" "hello" assistant 1000 None]
  ∧ messages (handleSendMessage 1001 Failed None chat1) =
      [mkMessage "400" "hi" user 400 None]
  ∧ inputValue chat1 = "again"
  ∧ inputValue (handleSendMessage 1001 Failed None chat1) = EmptyString.
Proof.
  split; [split; reflexivity|]. repeat split; vm_compute; reflexivity.
Qed.

End ChatTheorems.

(** ** The Processing Queue *)

Section QueueTheorems.
Import Sync Queue.
Variable max_retries : nat.

Abbreviation apply_op := (apply_op max_retries).
Abbreviation run := (run max_retries).
Abbreviation fail_events := (fail_events max_retries).
Abbreviation reset_events := (reset_events max_retries).

Example retry_until_failed :
  status <$> items (Queue.run 2
    [Enqueue "cs101" "up/a.pdf" "a.pdf"; ClaimNext; MarkFailed 0 "timeout";
     ClaimNext; MarkFailed 0 "timeout"; ClaimNext] empty) = ["failed"].
Proof. vm_compute. reflexivity. Qed.

(** The router's retry trigger and the queue's reset are the same update
    of the table. *)
Lemma retry_failed_is_router cid db n :
  items (retry_failed cid (mkQueue (processing_queue db) n)) =
  processing_queue (db_after_retry cid db).
Proof.
  unfold db_after_retry, Sync.retry_failed_files, retry_failed. simpl.
  destruct (filter (Sync.is_failed_of cid) (processing_queue db)) eqn:E; [|done].
  simpl. rewrite <- (list_fmap_id (processing_queue db)) at 2.
  apply list_fmap_ext. intros i it Hit. simpl.
  case_decide as Hf; [|done]. exfalso.
  apply list_elem_of_lookup_2 in Hit.
  assert (it ∈ filter (Sync.is_failed_of cid) (processing_queue db)) as Hin
    by (apply list_elem_of_filter; done).
  rewrite E in Hin. by apply elem_of_nil in Hin.
Qed.

Lemma wf_empty : wf empty.
Proof. split; [constructor | intros it Hit; by apply elem_of_nil in Hit]. Qed.

Lemma unique_job (l : list ProcessingQueueItem) a b :
  NoDup (job_id <$> l) → a ∈ l → b ∈ l → job_id a = job_id b → a = b.
Proof.
  induction l as [|x l IH]; intros Hnd Ha Hb Hid; [by apply elem_of_nil in Ha|].
  rewrite fmap_cons in Hnd. apply NoDup_cons in Hnd as [Hx Hnd].
  apply elem_of_cons in Ha as [-> | Ha]; apply elem_of_cons in Hb as [-> | Hb].
  - done.
  - exfalso. apply Hx. rewrite Hid. by apply list_elem_of_fmap_2.
  - exfalso. apply Hx. rewrite <- Hid. by apply list_elem_of_fmap_2.
  - by apply IH.
Qed.

Lemma elem_of_insert_inv {A} (l : list A) i x y :
  y ∈ <[i := x]> l → y = x ∨ y ∈ l.
Proof.
  intros [k Hk]%list_elem_of_lookup_1.
  apply list_lookup_insert_Some in Hk as [(_ & -> & _) | (_ & Hk)]; [by left|].
  right. by eapply list_elem_of_lookup_2.
Qed.

Lemma ids_fmap_preserved (g : ProcessingQueueItem → ProcessingQueueItem)
    (l : list ProcessingQueueItem) :
  (∀ it, job_id (g it) = job_id it) → job_id <$> (g <$> l) = job_id <$> l.
Proof.
  intros Hg. rewrite <- list_fmap_compose. apply list_fmap_ext.
  intros i it _. apply Hg.
Qed.

Lemma claim_next_Some q job q' :
  claim_next q = (Some job, q') →
  ∃ i it, items q !! i = Some it ∧ status it = "queued"
          ∧ (∀ k y, items q !! k = Some y → k < i → status y ≠ "queued")
          ∧ job = set_status "processing" it
          ∧ q' = mkQueue (<[i := job]> (items q)) (next_id q).
Proof.
  unfold claim_next.
  destruct (list_find _ (items q)) as [[i it]|] eqn:E; [|discriminate].
  intros [= <- <-]. apply list_find_Some in E as (Hi & Hq & Hmin).
  exists i, it. done.
Qed.

Lemma claim_next_None q q' :
  claim_next q = (None, q') →
  q' = q ∧ ∀ it, it ∈ items q → status it ≠ "queued".
Proof.
  unfold claim_next.
  destruct (list_find _ (items q)) as [[i it]|] eqn:E; [discriminate|].
  intros [= <-]. split; [done|].
  apply list_find_None in E. by apply Forall_forall.
Qed.

Lemma from_processing_ids g j q :
  (∀ it, job_id (g it) = job_id it) →
  job_id <$> items (from_processing g j q) = job_id <$> items q.
Proof.
  intros Hg. unfold from_processing. simpl. apply ids_fmap_preserved.
  intros it. by case_decide.
Qed.

Lemma wf_of_same_ids q l :
  wf q → job_id <$> l = job_id <$> items q → wf (mkQueue l (next_id q)).
Proof.
  intros [Hnd Hlt] Hids. split; simpl; [by rewrite Hids|].
  intros it Hit. apply (list_elem_of_fmap_2 job_id) in Hit.
  rewrite Hids in Hit. apply list_elem_of_fmap in Hit as (x & -> & Hx).
  by apply Hlt.
Qed.

Lemma claim_next_ids q :
  job_id <$> items (snd (claim_next q)) = job_id <$> items q.
Proof.
  destruct (claim_next q) as [[job|] q'] eqn:E.
  - apply claim_next_Some in E as (i & it & Hi & _ & _ & -> & ->). simpl.
    rewrite list_fmap_insert. apply list_insert_id.
    by rewrite list_lookup_fmap, Hi.
  - by apply claim_next_None in E as [-> _].
Qed.

Lemma wf_claim_next q : wf q → wf (snd (claim_next q)).
Proof.
  intros Hwf.
  assert (next_id (snd (claim_next q)) = next_id q) as Hn.
  { unfold claim_next. by destruct (list_find _ _) as [[i it]|]. }
  destruct (snd (claim_next q)) as [l n] eqn:E. simpl in Hn. subst n.
  apply wf_of_same_ids; [done|]. by rewrite <- (claim_next_ids q), E.
Qed.

Lemma wf_apply_op o q : wf q → wf (apply_op o q).
Proof.
  intros Hwf. pose proof Hwf as [Hnd Hlt]. destruct o as [c f n| |j|j err|c|c]; simpl.
  - unfold enqueue. destruct (list_find _ _) as [[i it]|]; [done|]. simpl.
    split; simpl.
    + rewrite fmap_app. apply NoDup_app. split; [done|]. split; [|apply NoDup_singleton].
      intros x Hx. apply list_elem_of_fmap in Hx as (it & -> & Hit).
      simpl. rewrite list_elem_of_singleton. specialize (Hlt _ Hit). lia.
    + intros it [Hit | Hit]%elem_of_app.
      * specialize (Hlt _ Hit). lia.
      * apply list_elem_of_singleton in Hit as ->. simpl. lia.
  - by apply wf_claim_next.
  - apply wf_of_same_ids; [done|]. by apply from_processing_ids.
  - apply wf_of_same_ids; [done|]. by apply from_processing_ids.
  - unfold clear. split; simpl.
    + eapply sublist_NoDup; [exact Hnd|]. apply fmap_sublist, sublist_filter.
    + intros it [_ Hit]%list_elem_of_filter. by apply Hlt.
  - apply wf_of_same_ids; [done|]. apply ids_fmap_preserved.
    intros it. by case_decide.
Qed.

Lemma run_app ops1 ops2 q : run (ops1 ++ ops2) q = run ops2 (run ops1 q).
Proof. revert q. induction ops1 as [|o ops1 IH]; intros q; simpl; [done|apply IH]. Qed.

Lemma wf_run ops q : wf q → wf (run ops q).
Proof.
  revert q. induction ops as [|o ops IH]; intros q Hwf; simpl; [done|].
  by apply IH, wf_apply_op.
Qed.

Lemma counted_step j o q k :
  counted j q k →
  counted j (apply_op o q) (k + (if fail_event j o q then 1 else 0)).
Proof.
  intros (Hwf & Hrc & Hfresh). split; [by apply wf_apply_op|].
  pose proof Hwf as [Hnd Hlt].
  destruct o as [c f n| |j'|j' err|c|c]; simpl; rewrite ?Nat.add_0_r.
  - unfold enqueue. destruct (list_find _ _) as [[i it]|]; [done|]. simpl. split.
    + intros it [Hit | Hit]%elem_of_app Hj; [by apply Hrc|].
      apply list_elem_of_singleton in Hit as ->. simpl in *.
      rewrite Hfresh by lia. lia.
    + intros Hle. apply Hfresh. lia.
  - destruct (claim_next q) as [[job|] q'] eqn:E; simpl.
    + apply claim_next_Some in E as (i & it & Hi & _ & _ & -> & ->). simpl.
      split; [|done]. intros y Hy Hj.
      apply elem_of_insert_inv in Hy as [-> | Hy]; [|by apply Hrc].
      simpl in *. apply list_elem_of_lookup_2 in Hi. by apply (Hrc it).
    + by apply claim_next_None in E as [-> _].
  - split; [|done]. intros y Hy Hj.
    apply list_elem_of_fmap in Hy as (x & -> & Hx).
    case_decide; simpl in *; by apply Hrc.
  - split.
    + intros y Hy Hj. apply list_elem_of_fmap in Hy as (x & -> & Hx).
      case_bool_decide as Hev.
      * destruct Hev as [-> Hex]. apply Exists_exists in Hex as (it0 & Hit0 & Hid0 & Hst0).
        assert (job_id x = j) as Hxj by (by case_decide).
        assert (x = it0) as -> by (apply (unique_job (items q)); congruence).
        rewrite decide_True by done. simpl. specialize (Hrc _ Hit0 Hid0). lia.
      * rewrite Nat.add_0_r. case_decide; simpl in *.
        -- specialize (Hrc x Hx Hj). lia.
        -- by apply Hrc.
    + intros Hle. case_bool_decide as Hev; [|rewrite Nat.add_0_r; by apply Hfresh].
      destruct Hev as [-> Hex]. apply Exists_exists in Hex as (it0 & Hit0 & Hid0 & _).
      specialize (Hlt _ Hit0). simpl in Hle. lia.
  - split; [|done]. intros y [_ Hy]%list_elem_of_filter Hj. by apply Hrc.
  - split; [|done]. intros y Hy Hj.
    apply list_elem_of_fmap in Hy as (x & -> & Hx).
    case_decide; simpl in *; [|by apply Hrc].
    specialize (Hrc x Hx Hj). lia.
Qed.

Lemma counted_run j ops q k :
  counted j q k → counted j (run ops q) (k + fail_events j ops q).
Proof.
  revert q k. induction ops as [|o ops IH]; intros q k Hc; simpl.
  - by rewrite Nat.add_0_r.
  - rewrite Nat.add_assoc. by apply IH, counted_step.
Qed.

Lemma frozen_step j o q :
  frozen j q → reset_event j o q = false → frozen j (apply_op o q).
Proof.
  intros [Hj Hfz] Hnr.
  destruct o as [c f n| |j'|j' err|c|c]; simpl.
  - unfold enqueue. destruct (list_find _ _) as [[i it]|]; [by split|].
    split; simpl; [lia|].
    intros it [Hit | Hit]%elem_of_app Hid; [by apply Hfz|].
    apply list_elem_of_singleton in Hit as ->. simpl in Hid. lia.
  - destruct (claim_next q) as [[job|] q'] eqn:E; simpl.
    + apply claim_next_Some in E as (i & it & Hi & Hq & _ & -> & ->).
      split; simpl; [done|]. intros y Hy Hid.
      apply elem_of_insert_inv in Hy as [-> | Hy]; [|by apply Hfz].
      simpl in Hid. apply list_elem_of_lookup_2 in Hi.
      specialize (Hfz it Hi Hid). congruence.
    + by apply claim_next_None in E as [-> _].
  - split; [done|]. intros y Hy Hid.
    apply list_elem_of_fmap in Hy as (x & -> & Hx).
    case_decide as Hd; [|by apply Hfz]. simpl in Hid. destruct Hd as [_ Hp].
    specialize (Hfz x Hx Hid). congruence.
  - split; [done|]. intros y Hy Hid.
    apply list_elem_of_fmap in Hy as (x & -> & Hx).
    case_decide as Hd; [|by apply Hfz]. simpl in Hid. destruct Hd as [_ Hp].
    specialize (Hfz x Hx Hid). congruence.
  - split; [done|]. intros y [_ Hy]%list_elem_of_filter Hid. by apply Hfz.
  - split; [done|]. intros y Hy Hid.
    apply list_elem_of_fmap in Hy as (x & -> & Hx).
    simpl in Hnr. apply bool_decide_eq_false in Hnr.
    case_decide as Hd; [|by apply Hfz]. simpl in Hid.
    exfalso. apply Hnr. apply Exists_exists. by exists x.
Qed.

Lemma frozen_run j ops q :
  frozen j q → reset_events j ops q = 0 → frozen j (run ops q).
Proof.
  revert q. induction ops as [|o ops IH]; intros q Hfz Hnr; simpl in *; [done|].
  destruct (reset_event j o q) eqn:E; [discriminate|].
  apply IH; [by apply frozen_step|done].
Qed.

(** C5 (retry cap): a job that is [processing] and whose failure now is
    at least its [max_retries]-th one goes to [failed] by [mark_failed];
    and in every state reached from there by queue operations that do not
    reset the job (the retry trigger on it), the job is still [failed]:
    it is never [queued] again. *)
Theorem retry_cap_freezes_failed (ops more : list Op) (j : nat) (err : string) :
  let q1 := run ops empty in
  let q2 := run (ops ++ [MarkFailed j err]) empty in
  (∃ it, it ∈ items q1 ∧ job_id it = j ∧ status it = "processing") →
  max_retries ≤ fail_events j ops empty + 1 →
  reset_events j more q2 = 0 →
  (∃ it, it ∈ items q2 ∧ job_id it = j ∧ status it = "failed")
  ∧ ∀ it, it ∈ items (run more q2) → job_id it = j →
          status it = "failed" ∧ status it ≠ "queued".
Proof.
  intros q1 q2 (it & Hit & Hid & Hp) Hmax Hnr.
  assert (counted j q1 (fail_events j ops empty)) as (Hwf & Hrc & _).
  { apply (counted_run j ops empty 0). split; [apply wf_empty|].
    split; [|done]. intros x Hx. by apply elem_of_nil in Hx. }
  pose proof Hwf as [Hnd Hlt].
  assert (q2 = mark_failed max_retries j err q1) as Hq2.
  { subst q2 q1. by rewrite run_app. }
  assert (status (fail_item max_retries err it) = "failed") as Hfailed.
  { simpl. specialize (Hrc _ Hit Hid). rewrite decide_True by lia. done. }
  assert (frozen j q2) as Hfz.
  { rewrite Hq2. split; simpl; [rewrite <- Hid; by apply Hlt|].
    intros y Hy Hy_id. apply list_elem_of_fmap in Hy as (x & -> & Hx).
    assert (job_id x = j) as Hxj by (by case_decide).
    assert (x = it) as -> by (apply (unique_job (items q1)); congruence).
    by rewrite decide_True. }
  split.
  - exists (fail_item max_retries err it). rewrite Hq2. split; [|done].
    simpl. apply list_elem_of_fmap. exists it. by rewrite decide_True.
  - intros y Hy Hy_id.
    destruct (frozen_run j more q2 Hfz Hnr) as [_ Hall].
    rewrite (Hall y Hy Hy_id). done.
Qed.

(** The reset is what brings a failed job back: the retry trigger on its
    course makes it [queued] again. *)
Lemma retry_failed_requeues c q it :
  it ∈ items q → Sync.is_failed_of c it →
  retried it ∈ items (retry_failed c q).
Proof.
  intros Hit Hf. unfold retry_failed. simpl. apply list_elem_of_fmap.
  exists it. by rewrite decide_True, retry_item_retried.
Qed.

End QueueTheorems.

Lemma retry_cap_freezes_failed_witness :
  (∃ it, it ∈ Queue.items
       (Queue.run 2 [Queue.Enqueue "cs101" "up/a.pdf" "a.pdf"; Queue.ClaimNext;
                     Queue.MarkFailed 0 "timeout"; Queue.ClaimNext] Queue.empty)
     ∧ job_id it = 0 ∧ status it = "processing")
  ∧ ∀ it, it ∈ Queue.items
       (Queue.run 2 [Queue.Enqueue "cs101" "up/a.pdf" "a.pdf"; Queue.ClaimNext;
                     Queue.MarkFailed 0 "timeout"; Queue.ClaimNext;
                     Queue.MarkFailed 0 "timeout";
                     Queue.ClaimNext; Queue.Enqueue "cs101" "up/a.pdf" "a.pdf";
                     Queue.RetryFailed "ma201"; Queue.MarkCompleted 0] Queue.empty) →
       job_id it = 0 → status it = "failed" ∧ status it ≠ "queued".
Proof.
  assert (∃ it, it ∈ Queue.items
       (Queue.run 2 [Queue.Enqueue "cs101" "up/a.pdf" "a.pdf"; Queue.ClaimNext;
                     Queue.MarkFailed 0 "timeout"; Queue.ClaimNext] Queue.empty)
     ∧ job_id it = 0 ∧ status it = "processing") as Hproc.
  { exists (mkItem 0 "cs101" "up/a.pdf" "a.pdf" "processing" 1 (Some "timeout")).
    split; [vm_compute; apply list_elem_of_here | split; reflexivity]. }
  split; [exact Hproc|].
  pose proof (retry_cap_freezes_failed 2
    [Queue.Enqueue "cs101" "up/a.pdf" "a.pdf"; Queue.ClaimNext;
     Queue.MarkFailed 0 "timeout"; Queue.ClaimNext]
    [Queue.ClaimNext; Queue.Enqueue "cs101" "up/a.pdf" "a.pdf";
     Queue.RetryFailed "ma201"; Queue.MarkCompleted 0]
    0 "timeout" Hproc) as H.
  cbv zeta in H. rewrite run_app in H.
  apply H; vm_compute; [lia | reflexivity].
Defined.

(** ** The Ingestion Service and the Vector Index *)

Section IngestionTheorems.
Import VectorIndex Ingestion.
Variable extract_and_chunk : string → IngestError + list Chunker.Chunk.
Variable embed_batch : list string → option (list Vector).

Abbreviation ingest := (Ingestion.ingest extract_and_chunk embed_batch).

Lemma lookup_upsert_batch (course doc : string)
    (batch : list (Chunker.Chunk * Vector)) (first : nat) (idx : Index)
    (d : string) (k : nat) :
  upsert_batch course doc first batch idx !! (d, k) =
    if decide (d = doc ∧ first ≤ k < first + length batch)
    then entry_of course <$> batch !! (k - first)
    else idx !! (d, k).
Proof.
  revert first idx. induction batch as [|[c v] rest IH]; intros first idx; simpl.
  - rewrite decide_False; [done|]. intros [_ ?]. lia.
  - rewrite IH. unfold upsert.
    destruct (decide (d = doc ∧ first = k)) as [[-> ->]|Hne].
    + rewrite decide_False by (intros [_ ?]; lia).
      rewrite decide_True by (split; [done|lia]).
      rewrite lookup_insert_eq, Nat.sub_diag. done.
    + rewrite lookup_insert_ne by (intros [= -> ->]; by apply Hne).
      destruct (decide (d = doc ∧ S first ≤ k < S first + length rest)) as [[-> Hk]|Hk].
      * rewrite decide_True by (split; [done|lia]).
        replace (k - first) with (S (k - S first)) by lia. done.
      * rewrite decide_False; [done|]. intros [-> Hr]. apply Hk.
        split; [done|]. assert (first ≠ k) by (intros ->; by apply Hne). lia.
Qed.

Lemma lookup_delete_by_document (doc : string) (idx : Index) (d : string) (k : nat) :
  delete_by_document doc idx !! (d, k) =
    if decide (d = doc) then None else idx !! (d, k).
Proof.
  unfold delete_by_document. case_decide as Hd.
  - apply map_lookup_filter_None. right. intros e _. simpl. by intros Hne.
  - destruct (idx !! (d, k)) as [e|] eqn:E.
    + by apply map_lookup_filter_Some.
    + apply map_lookup_filter_None. by left.
Qed.

(** After storing a batch the document has the batch and nothing else;
    other documents keep what they had. *)
Lemma lookup_store_chunks (course doc : string)
    (batch : list (Chunker.Chunk * Vector)) (idx : Index) (d : string) (k : nat) :
  store_chunks course doc batch idx !! (d, k) =
    if decide (d = doc) then entry_of course <$> batch !! k
    else idx !! (d, k).
Proof.
  unfold store_chunks. rewrite lookup_upsert_batch, lookup_delete_by_document.
  rewrite Nat.sub_0_r. destruct (decide (d = doc)) as [->|Hd].
  - case_decide as Hk; [done|]. rewrite lookup_ge_None_2; [done|].
    destruct (decide (k < length batch)); [|lia].
    exfalso. apply Hk. split; [done|lia].
  - rewrite decide_False; [done|]. by intros [? _].
Qed.

Lemma chunk_count_upsert_batch (course doc : string)
    (batch : list (Chunker.Chunk * Vector)) (first : nat) (idx : Index) :
  (∀ k, first ≤ k → idx !! (doc, k) = None) →
  chunk_count doc (upsert_batch course doc first batch idx) =
    length batch + chunk_count doc idx.
Proof.
  revert first idx. induction batch as [|[c v] rest IH]; intros first idx Hfree; simpl.
  - done.
  - rewrite IH.
    + unfold chunk_count, chunks_of_document, upsert.
      rewrite map_filter_insert_True by done.
      rewrite map_size_insert_None; [lia|].
      apply map_lookup_filter_None. left. by apply Hfree.
    + intros k Hk. unfold upsert. rewrite lookup_insert_ne by (intros [=]; lia).
      apply Hfree. lia.
Qed.

Lemma chunk_count_store_chunks (course doc : string)
    (batch : list (Chunker.Chunk * Vector)) (idx : Index) :
  chunk_count doc (store_chunks course doc batch idx) = length batch.
Proof.
  unfold store_chunks. rewrite chunk_count_upsert_batch.
  - assert (chunk_count doc (delete_by_document doc idx) = 0) as ->; [|lia].
    unfold chunk_count, chunks_of_document. apply map_size_empty_iff, map_empty.
    intros [d k]. apply map_lookup_filter_None.
    rewrite lookup_delete_by_document. case_decide; [by left|].
    right. intros e _. done.
  - intros k _. rewrite lookup_delete_by_document. by rewrite decide_True.
Qed.

Lemma store_chunks_replaces (course doc : string)
    (batch1 batch2 : list (Chunker.Chunk * Vector)) (idx : Index) :
  store_chunks course doc batch2 (store_chunks course doc batch1 idx) =
  store_chunks course doc batch2 idx.
Proof.
  apply map_eq. intros [d k]. rewrite !lookup_store_chunks.
  by case_decide.
Qed.

Lemma ingest_inr (course doc ref : string) (idx : Index) (n : nat) (idx' : Index) :
  ingest course doc ref idx = inr (n, idx') →
  ∃ batch, length batch = n ∧ idx' = store_chunks course doc batch idx.
Proof.
  unfold Ingestion.ingest.
  destruct (extract_and_chunk ref) as [e|chunks]; [discriminate|].
  destruct (embed_batch _) as [vectors|]; [|discriminate].
  case_decide as Hlen; [|discriminate]. intros [= <- <-].
  exists (zip chunks vectors). split; [|done].
  rewrite length_zip_with. lia.
Qed.

(** C6 (reprocessing replaces, never appends): when a document is ingested
    twice in a row, the index holds for it exactly the chunks of the
    second run: its chunk count is that of the second run, not the sum,
    every stored chunk of the document is one of the second batch, other
    documents are untouched, and the index is the one the second run
    alone would have produced. *)
Theorem reingest_replaces (course doc ref1 ref2 : string)
    (idx idx1 idx2 : Index) (n1 n2 : nat) :
  ingest course doc ref1 idx = inr (n1, idx1) →
  ingest course doc ref2 idx1 = inr (n2, idx2) →
  chunk_count doc idx2 = n2
  ∧ (0 < n1 → chunk_count doc idx2 ≠ n1 + n2)
  ∧ (∃ batch2, length batch2 = n2
       ∧ ∀ k, idx2 !! (doc, k) = entry_of course <$> batch2 !! k)
  ∧ (∀ d k, d ≠ doc → idx2 !! (d, k) = idx !! (d, k))
  ∧ ingest course doc ref2 idx = inr (n2, idx2).
Proof.
  intros H1 H2.
  destruct (ingest_inr _ _ _ _ _ _ H1) as (batch1 & Hl1 & ->).
  pose proof H2 as H2'.
  destruct (ingest_inr _ _ _ _ _ _ H2) as (batch2 & Hl2 & ->).
  split; [|split; [|split; [|split]]].
  - by rewrite chunk_count_store_chunks.
  - rewrite chunk_count_store_chunks. lia.
  - exists batch2. split; [done|]. intros k.
    rewrite lookup_store_chunks. by rewrite decide_True.
  - intros d k Hd. rewrite !lookup_store_chunks. by rewrite !decide_False.
  - revert H2'. unfold Ingestion.ingest.
    destruct (extract_and_chunk ref2) as [e|chunks]; [discriminate|].
    destruct (embed_batch _) as [vectors|]; [|discriminate].
    case_decide; [|discriminate].
    by rewrite !store_chunks_replaces.
Qed.

End IngestionTheorems.

Lemma reingest_replaces_witness :
  let idx1 := Ingestion.store_chunks "cs101" "notes"
                [(Chunker.mkChunk 0 "v1" None, [1%Q])] ∅ in
  let idx2 := Ingestion.store_chunks "cs101" "notes"
                [(Chunker.mkChunk 0 "v2" None, [1%Q])] idx1 in
  Ingestion.ingest demo_extract demo_embed "cs101" "notes" "v1" ∅ = inr (1, idx1)
  ∧ Ingestion.ingest demo_extract demo_embed "cs101" "notes" "v2" idx1 = inr (1, idx2)
  ∧ VectorIndex.chunk_count "notes" idx2 = 1.
Proof.
  intros idx1 idx2.
  assert (Ingestion.ingest demo_extract demo_embed "cs101" "notes" "v1" ∅
          = inr (1, idx1)) as H1 by reflexivity.
  assert (Ingestion.ingest demo_extract demo_embed "cs101" "notes" "v2" idx1
          = inr (1, idx2)) as H2 by reflexivity.
  split; [exact H1|]. split; [exact H2|].
  exact (proj1 (reingest_replaces demo_extract demo_embed
                  "cs101" "notes" "v1" "v2" ∅ idx1 idx2 1 1 H1 H2)).
Defined.

(* ===================================================================== *)
(** * Part III: further properties of the code                            *)
(* ===================================================================== *)

(** ** The sync router: retry, status and clear together *)

Section SyncComposition.
Import Sync.

(** The table after a retry request, in every case: the retry loop applied
    to each row. *)
Lemma queue_after_retry cid db :
  processing_queue (db_after_retry cid db) =
  (λ it, if decide (is_failed_of cid it) then retry_item it else it)
    <$> processing_queue db.
Proof. by rewrite <- (retry_failed_is_router cid db 0). Qed.

Lemma items_in_state_fmap_retry cid (l : list ProcessingQueueItem) :
  length (filter (λ it, course_id it = cid ∧ status it = "queued")
            ((λ it, if decide (is_failed_of cid it) then retry_item it else it) <$> l))
  = length (filter (λ it, course_id it = cid ∧ status it = "queued") l)
    + length (filter (λ it, course_id it = cid ∧ status it = "failed") l)
  ∧ length (filter (λ it, course_id it = cid ∧ status it = "failed")
              ((λ it, if decide (is_failed_of cid it) then retry_item it else it) <$> l))
    = 0.
Proof.
  induction l as [|x l [IHq IHf]]; [done|]. rewrite fmap_cons.
  destruct (decide (is_failed_of cid x)) as [[Hc Hs]|Hnf].
  - rewrite (filter_cons_True _ (retry_item x)) by (by split).
    rewrite (filter_cons_False _ (retry_item x)) by (simpl; intros [_ ?]; done).
    rewrite (filter_cons_False _ x) by (rewrite Hs; intros [_ ?]; done).
    rewrite (filter_cons_True _ x) by (by split).
    simpl. rewrite IHq, IHf. lia.
  - rewrite (filter_cons_False (λ it, course_id it = cid ∧ status it = "failed") x)
      by done.
    rewrite (filter_cons_False (λ it, course_id it = cid ∧ status it = "failed") x)
      by done.
    rewrite IHf. split; [|done].
    rewrite !(filter_cons (λ it, course_id it = cid ∧ status it = "queued") x).
    case_decide; simpl; rewrite IHq; lia.
Qed.

(** X1: a retry request leaves no [failed] item of the course behind: the
    failed count of the course drops to zero, its queued count grows by
    exactly the number of items that were failed, and the table keeps its
    length. *)
Theorem retry_moves_failed_to_queued cid db :
  items_in_state cid "failed" (db_after_retry cid db) = 0
  ∧ items_in_state cid "queued" (db_after_retry cid db) =
      items_in_state cid "queued" db + items_in_state cid "failed" db
  ∧ length (processing_queue (db_after_retry cid db)) = length (processing_queue db).
Proof.
  unfold items_in_state. rewrite queue_after_retry.
  destruct (items_in_state_fmap_retry cid (processing_queue db)) as [Hq Hf].
  split; [exact Hf|]. split; [exact Hq|]. by rewrite length_fmap.
Qed.

Lemma no_failed_after_retry cid db :
  filter (is_failed_of cid) (processing_queue (db_after_retry cid db)) = [].
Proof.
  pose proof (proj1 (retry_moves_failed_to_queued cid db)) as H.
  unfold items_in_state in H. by apply length_zero_iff_nil in H.
Qed.

(** X2: retrying twice is retrying once: the second request finds nothing,
    answers "No failed files to retry", changes no row and schedules no
    task. *)
Theorem retry_failed_files_twice cid db :
  retry_failed_files cid (db_after_retry cid db) =
  (mkRetryBody "No failed files to retry" None, db_after_retry cid db, []).
Proof.
  unfold retry_failed_files at 1. by rewrite no_failed_after_retry.
Qed.

Lemma length_filter_all {A} (P : A → Prop) `{!∀ x, Decision (P x)} (l : list A) :
  length (filter P l) = length l ↔ ∀ x, x ∈ l → P x.
Proof.
  induction l as [|x l IH]; [split; [intros _ y Hy; by apply elem_of_nil in Hy|done]|].
  rewrite filter_cons. pose proof (length_filter P l) as Hle. case_decide as HP; simpl.
  - split.
    + intros Hlen y [->|Hy]%elem_of_cons; [done|]. apply IH; [lia|done].
    + intros Hall. f_equal. apply IH. intros y Hy. apply Hall. by apply list_elem_of_further.
  - split; [lia|]. intros Hall. exfalso. apply HP, Hall, list_elem_of_here.
Qed.

Lemma length_filter_pos {A} (P : A → Prop) `{!∀ x, Decision (P x)} (l : list A) :
  0 < length (filter P l) ↔ ∃ x, x ∈ l ∧ P x.
Proof.
  split.
  - destruct (filter P l) as [|x k] eqn:E; [simpl; lia|]. intros _.
    assert (x ∈ filter P l) as Hx by (rewrite E; apply list_elem_of_here).
    apply list_elem_of_filter in Hx. exists x. tauto.
  - intros (x & Hx & HP).
    assert (x ∈ filter P l) as Hin by (by apply list_elem_of_filter).
    destruct (filter P l); [by apply elem_of_nil in Hin|simpl; lia].
Qed.

(** X3: what the [status] text of the status query means. It is
    ["processing"] exactly when some item of the course is processing;
    ["idle"] exactly when every item of the course is completed (an empty
    queue included); and ["queued"] in every other case, also when all
    that is left is failed. *)
Theorem get_sync_status_text cid db body :
  get_sync_status cid db = inr body →
  (ss_status body = "processing" ↔
     ∃ it, it ∈ processing_queue db ∧ course_id it = cid ∧ status it = "processing")
  ∧ (ss_status body = "idle" ↔
     ∀ it, it ∈ processing_queue db → course_id it = cid → status it = "completed")
  ∧ (ss_status body = "processing" ∨ ss_status body = "idle"
     ∨ ss_status body = "queued").
Proof.
  unfold get_sync_status.
  destruct (scalar_one_or_none _) as [e|[c|]]; [discriminate| |discriminate].
  intros [= <-]. cbn [ss_status].
  set (items := filter (λ it, course_id it = cid) (processing_queue db)).
  assert ((0 < length (with_status "processing" items)) ↔
          ∃ it, it ∈ processing_queue db ∧ course_id it = cid ∧ status it = "processing")
    as Hproc.
  { unfold with_status. rewrite length_filter_pos. subst items. split.
    - intros (x & [Hc Hx]%list_elem_of_filter & Hs). by exists x.
    - intros (x & Hx & Hc & Hs). exists x. split; [|done]. by apply list_elem_of_filter. }
  assert (¬ (length (with_status "completed" items) < length items) ↔
          ∀ it, it ∈ processing_queue db → course_id it = cid → status it = "completed")
    as Hidle.
  { unfold with_status. pose proof (length_filter (λ it, status it = "completed") items) as Hle.
    pose proof (length_filter_all (λ it, status it = "completed") items) as Hall.
    split.
    - intros Hn it Hit Hc. apply Hall; [lia|]. subst items. by apply list_elem_of_filter.
    - intros Hq. assert (length (filter (λ it, status it = "completed") items)
                         = length items) as ->; [|lia].
      apply Hall. subst items. intros x [Hc Hx]%list_elem_of_filter. by apply Hq. }
  split; [|split].
  - case_decide; [tauto|]. split; [|tauto]. case_decide; discriminate.
  - case_decide as Hp.
    + split; [discriminate|]. intros Hall. exfalso.
      apply Hproc in Hp as (x & Hx & Hc & Hs). specialize (Hall x Hx Hc). congruence.
    + case_decide as Hq; [|tauto]. split; [discriminate|]. intros Hall.
      exfalso. by apply Hidle in Hall.
  - repeat case_decide; tauto.
Qed.

Lemma queue_status_lookup cid db body :
  get_sync_status cid db = inr body →
  ss_queue_status body !! "total" =
    Some (length (filter (λ it, course_id it = cid) (processing_queue db)))
  ∧ ss_queue_status body !! "completed" = Some (items_in_state cid "completed" db)
  ∧ ss_queue_status body !! "processing" = Some (items_in_state cid "processing" db)
  ∧ ss_queue_status body !! "failed" = Some (items_in_state cid "failed" db).
Proof.
  unfold get_sync_status.
  destruct (scalar_one_or_none _) as [e|[c|]]; [discriminate| |discriminate].
  intros [= <-]. cbn [ss_queue_status].
  assert (∀ s, length (with_status s
                 (filter (λ it, course_id it = cid) (processing_queue db)))
               = items_in_state cid s db) as Hcnt.
  { intros s. unfold with_status, items_in_state.
    rewrite list_filter_filter. f_equal. apply list_filter_iff.
    intros it. tauto. }
  rewrite !Hcnt. repeat split; by simplify_map_eq.
Qed.

Lemma length_filter_cons {A} (P : A → Prop) `{!∀ x, Decision (P x)} (x : A) (l : list A) :
  length (filter P (x :: l)) = (if decide (P x) then 1 else 0) + length (filter P l).
Proof. rewrite filter_cons. by case_decide. Qed.

Lemma course_items_by_state cid (l : list ProcessingQueueItem) :
  (∀ it, it ∈ l → course_id it = cid →
     status it ∈ ["queued"; "processing"; "completed"; "failed"]) →
  length (filter (λ it, course_id it = cid) l) =
    length (filter (λ it, course_id it = cid ∧ status it = "queued") l)
    + length (filter (λ it, course_id it = cid ∧ status it = "processing") l)
    + length (filter (λ it, course_id it = cid ∧ status it = "completed") l)
    + length (filter (λ it, course_id it = cid ∧ status it = "failed") l).
Proof.
  induction l as [|x l IH]; intros Hst; [done|].
  assert (∀ it, it ∈ l → course_id it = cid →
            status it ∈ ["queued"; "processing"; "completed"; "failed"]) as Hl
    by (intros it Hit; apply Hst; by apply list_elem_of_further).
  specialize (IH Hl). rewrite !length_filter_cons, IH.
  pose proof (Hst x (list_elem_of_here _ _)) as Hx.
  rewrite !elem_of_cons, elem_of_nil in Hx.
  repeat case_decide; try lia; exfalso; intuition congruence.
Qed.

(** X4: the status query has no [queued] count, but when every item of the
    course is in one of the four states the count follows from what it
    returns: [total] is the sum of the queued, processing, completed and
    failed items of the course. *)
Theorem get_sync_status_total_is_sum cid db body :
  get_sync_status cid db = inr body →
  (∀ it, it ∈ processing_queue db → course_id it = cid →
     status it ∈ ["queued"; "processing"; "completed"; "failed"]) →
  ∃ total completed processing failed,
    ss_queue_status body !! "total" = Some total
    ∧ ss_queue_status body !! "completed" = Some completed
    ∧ ss_queue_status body !! "processing" = Some processing
    ∧ ss_queue_status body !! "failed" = Some failed
    ∧ total = items_in_state cid "queued" db + processing + completed + failed.
Proof.
  intros Hb Hst. destruct (queue_status_lookup _ _ _ Hb) as (Ht & Hc & Hp & Hf).
  eexists _, _, _, _. repeat (split; [eassumption|]).
  unfold items_in_state. by apply course_items_by_state.
Qed.

Lemma select_active_course_with_queue cid q db :
  select_active_course cid (with_queue q db) = select_active_course cid db.
Proof. done. Qed.



Lemma get_sync_status_text_witness :
  get_sync_status "cs101" db0 =
    inr (mkSyncStatus "cs101" "processing" None 1
           (<["total" := 3]> (<["completed" := 0]> (<["processing" := 1]>
              (<["failed" := 1]> (∅ : gmap string nat))))))
  ∧ ∃ it, it ∈ processing_queue db0 ∧ course_id it = "cs101" ∧ status it = "processing".
Proof.
  assert (get_sync_status "cs101" db0 =
    inr (mkSyncStatus "cs101" "processing" None 1
           (<["total" := 3]> (<["completed" := 0]> (<["processing" := 1]>
              (<["failed" := 1]> (∅ : gmap string nat))))))) as Hb by reflexivity.
  split; [exact Hb|].
  exact (proj1 (proj1 (get_sync_status_text _ _ _ Hb)) eq_refl).
Defined.

Lemma get_sync_status_total_is_sum_witness :
  ∃ total completed processing failed,
    total = items_in_state "cs101" "queued" db0 + processing + completed + failed
    ∧ total = 3.
Proof.
  assert (get_sync_status "cs101" db0 =
    inr (mkSyncStatus "cs101" "processing" None 1
           (<["total" := 3]> (<["completed" := 0]> (<["processing" := 1]>
              (<["failed" := 1]> (∅ : gmap string nat))))))) as Hb by reflexivity.
  assert (∀ it, it ∈ processing_queue db0 → course_id it = "cs101" →
     status it ∈ ["queued"; "processing"; "completed"; "failed"]) as Hst.
  { intros it Hit _. simpl in Hit.
    repeat (apply elem_of_cons in Hit as [-> | Hit];
            [simpl; rewrite !elem_of_cons; tauto|]).
    by apply elem_of_nil in Hit. }
  destruct (get_sync_status_total_is_sum _ _ _ Hb Hst)
    as (t & c & p & f & Ht & _ & _ & _ & Hsum).
  exists t, c, p, f. split; [exact Hsum|].
  vm_compute in Ht. by injection Ht as <-.
Defined.

End SyncComposition.

(** ** The sync router: file handlers and background tasks *)

Section SyncFilesTheorems.
Import Sync SyncFiles.

Lemma has_slash_app (a b : string) :
  has_slash (a ++ b) = has_slash a || has_slash b.
Proof.
  induction a as [|c a IH]; rewrite ?append_String, ?append_empty_l; [done|].
  simpl. rewrite IH. by rewrite orb_assoc.
Qed.

Lemma basename_from_no_slash (s acc : string) :
  has_slash s = false → basename_from acc s = acc ++ s.
Proof.
  revert acc. induction s as [|c s IH]; intros acc Hs; simpl in *.
  - by rewrite append_empty_r.
  - apply orb_false_iff in Hs as [Hc Hs]. rewrite Hc, IH by done.
    apply append_char_assoc.
Qed.

Lemma basename_from_after_slash (dir name acc : string) :
  basename_from acc (dir ++ String "/"%char name) = basename_from EmptyString name.
Proof.
  revert acc. induction dir as [|c dir IH]; intros acc;
    rewrite ?append_String, ?append_empty_l; simpl.
  - done.
  - destruct (Ascii.eqb c "/"); apply IH.
Qed.

Lemma basename_from_has_no_slash (s acc : string) :
  has_slash acc = false → has_slash (basename_from acc s) = false.
Proof.
  revert acc. induction s as [|c s IH]; intros acc Hacc; simpl; [done|].
  destruct (Ascii.eqb c "/") eqn:E; apply IH; [done|].
  rewrite has_slash_app, Hacc. simpl. by rewrite E.
Qed.

(** X10: the file name the retry task derives from a path,
    [file_path.split('/')[-1]], is the part after the last slash: it never
    contains a slash, it is the whole path when the path has none, and for
    a path [dir/name] with no slash in [name] it is [name]. *)
Theorem basename_is_last_segment (dir name : string) :
  has_slash (basename_from EmptyString dir) = false
  ∧ (has_slash name = false →
     basename_from EmptyString name = name
     ∧ basename_from EmptyString (dir ++ String "/"%char name) = name).
Proof.
  split; [by apply basename_from_has_no_slash|]. intros Hn.
  rewrite basename_from_after_slash. by rewrite !basename_from_no_slash.
Qed.

Lemma basename_is_last_segment_witness :
  has_slash "a.pdf" = false
  ∧ basename_from EmptyString ("uploads/cs101" ++ String "/"%char "a.pdf") = "a.pdf".
Proof.
  split; [reflexivity|].
  exact (proj2 (proj2 (basename_is_last_segment "uploads/cs101" "a.pdf") eq_refl)).
Defined.

Lemma retry_task_names cid (l : list ProcessingQueueItem) :
  (∀ it, it ∈ l → basename_from EmptyString (file_path it) = filename it) →
  omap task_name (run_retry_failed_processing cid (file_path <$> l)) = filename <$> l.
Proof.
  unfold run_retry_failed_processing.
  induction l as [|x l IH]; intros Hall; [done|].
  rewrite !fmap_cons. cbn [omap list_omap task_name].
  rewrite (Hall x (list_elem_of_here _ _)). f_equal.
  apply IH. intros it Hit. apply Hall. by apply list_elem_of_further.
Qed.

(** X11: the retry trigger reports the stored [filename] of each failed
    item but re-processes it under the last segment of its [file_path]. The
    names processed are the names reported, in the same order, whenever
    every failed item's [filename] is the last segment of its path. *)
Theorem retry_processes_reported_names cid db :
  (∀ it, it ∈ processing_queue db → is_failed_of cid it →
     basename_from EmptyString (file_path it) = filename it) →
  ∀ files, rb_files (fst (fst (retry_failed_files cid db))) = Some files →
    omap task_name (concat (single_runs <$> (process_single <$> snd (retry_failed_files cid db))))
    = files.
Proof.
  intros Hname files. unfold retry_failed_files.
  destruct (filter (is_failed_of cid) (processing_queue db)) as [|f fs] eqn:E;
    [discriminate|].
  cbn [fst snd rb_files]. intros [= <-].
  change (omap task_name
            (run_retry_failed_processing cid (file_path <$> f :: fs) ++ [])%list
          = filename <$> f :: fs).
  rewrite app_nil_r.
  apply retry_task_names. intros it Hit. rewrite <- E in Hit.
  apply list_elem_of_filter in Hit as [Hf Hit]. by apply Hname.
Qed.

Lemma retry_processes_reported_names_witness :
  omap task_name (concat (single_runs <$> (process_single <$> snd (retry_failed_files "cs101" db0))))
  = ["a.pdf"].
Proof.
  apply (retry_processes_reported_names "cs101" db0); [|reflexivity].
  intros it Hit [Hc Hs]. simpl in Hit.
  repeat (apply elem_of_cons in Hit as [-> | Hit]; [try reflexivity; discriminate Hs|]).
  by apply elem_of_nil in Hit.
Defined.

Section Bulk.
Variable queue_file : string → string → string → Db → option string * Db.

Abbreviation bulk_loop := (SyncFiles.bulk_loop queue_file).
Abbreviation process_bulk_files := (SyncFiles.process_bulk_files queue_file).
Abbreviation file_ready_for_processing := (SyncFiles.file_ready_for_processing queue_file).

Lemma bulk_loop_filenames files db results rs db' :
  bulk_loop files db results = (inr rs, db') →
  fr_filename <$> rs = ((fr_filename <$> results) ++ (fd_filename <$> files))%list.
Proof.
  revert db results. induction files as [|f files IH]; intros db results; simpl.
  - intros [= <- <-]. by rewrite app_nil_r.
  - destruct (scalar_one_or_none _) as [e|[c|]]; [discriminate| |].
    + destruct (queue_file _ _ _ db) as [[e|] db1]; intros H; apply IH in H;
        rewrite H, fmap_app, <- app_assoc; done.
    + intros H. apply IH in H. rewrite H, fmap_app, <- app_assoc. done.
Qed.

(** X12: a bulk request that is answered reports on every file: [results]
    has one entry per submitted file, in order and under its filename;
    [total_files] is their number and [queued], the number of entries with
    status ["queued"], never exceeds it. A batch task is scheduled exactly
    when at least one file was queued, and it then runs every submitted
    file, also those reported with an error. *)
Theorem process_bulk_files_reports_every_file files db body tasks db' :
  process_bulk_files files db = (inr body, tasks, db') →
  fr_filename <$> bb_results body = fd_filename <$> files
  ∧ bb_total_files body = length files
  ∧ bb_queued body = length (filter (λ r, fr_status r = "queued") (bb_results body))
  ∧ bb_queued body ≤ bb_total_files body
  ∧ concat (single_runs <$> tasks) =
      if decide (0 < bb_queued body) then run_process_batch_files files else [].
Proof.
  unfold SyncFiles.process_bulk_files.
  destruct (bulk_loop files db []) as [[e|results] db1] eqn:E; [discriminate|].
  intros [= <- <- <-]. cbn [bb_results bb_total_files bb_queued].
  pose proof (bulk_loop_filenames _ _ _ _ _ E) as Hn. simpl in Hn.
  split; [done|]. split; [done|]. split; [done|]. split.
  - pose proof (length_filter (λ r, fr_status r = "queued") results) as Hle.
    apply (f_equal length) in Hn. rewrite !length_fmap in Hn. lia.
  - destruct (filter _ results) as [|r rs']; simpl; [done|].
    by rewrite app_nil_r.
Qed.

(** X13: a bulk request with a single file schedules exactly the
    single-file processing that the file-ready notification schedules for
    it, and leaves the same database, in every case (course missing,
    queueing refused, queued). *)
Theorem bulk_of_one_is_file_ready f db :
  concat (single_runs <$> snd (fst (process_bulk_files [f] db))) =
  concat (single_runs <$> snd (fst (file_ready_for_processing f db)))
  ∧ snd (process_bulk_files [f] db) = snd (file_ready_for_processing f db).
Proof.
  unfold SyncFiles.process_bulk_files, SyncFiles.file_ready_for_processing. simpl.
  destruct (scalar_one_or_none _) as [e|[c|]]; simpl; [done| |done].
  destruct (queue_file _ _ _ db) as [[e|] db1]; simpl; done.
Qed.

End Bulk.

(** A queueing service that refuses paths without a slash and otherwise
    appends a [queued] item. *)
Lemma process_bulk_files_reports_every_file_witness :
  let queue_file := λ (c p n : string) (db : Db),
        if has_slash p
        then (None, with_queue (processing_queue db ++ [mkItem 9 c p n "queued" 0 None]) db)
        else (Some "bad path", db) in
  let files := [mkFileData "cs101" "e.pdf" "up/e.pdf" EmptyString;
                mkFileData "zz999" "f.pdf" "up/f.pdf" EmptyString;
                mkFileData "cs101" "g.pdf" "g.pdf" EmptyString] in
  ∃ body tasks db',
    SyncFiles.process_bulk_files queue_file files db0 = (inr body, tasks, db')
    ∧ bb_queued body = 1
    ∧ concat (single_runs <$> tasks) = run_process_batch_files files.
Proof.
  intros queue_file files.
  destruct (SyncFiles.process_bulk_files queue_file files db0) as [[[e|body] tasks] db']
    eqn:E; [vm_compute in E; discriminate E|].
  exists body, tasks, db'. split; [done|].
  destruct (process_bulk_files_reports_every_file queue_file files db0 body tasks db' E)
    as (_ & _ & _ & _ & Hrun).
  assert (bb_queued body = 1) as Hq.
  { vm_compute in E. injection E as <- _ _. reflexivity. }
  split; [exact Hq|]. rewrite Hrun, Hq. reflexivity.
Defined.

End SyncFilesTheorems.

(** ** The course card: validation *)

Section ValidationExtras.
Import JsString Upload CardState.

(** X14: a file is accepted on the text after its last dot alone: whatever
    stands before it, a name [base.ext] whose [ext] has no dot and, in
    lower case, is one of the supported types passes validation when the
    size is at most 50 MB. *)
Theorem validateFile_accepts_supported_suffix (base ext : string) (sz : N) :
  has_dot ext = false →
  "." ++ toLowerCase ext ∈ allowedTypes →
  (sz <= 52428800)%N →
  validateFile (mkFile (base ++ String "."%char ext) sz) = None.
Proof.
  intros Hext Hin Hsz. unfold validateFile.
  rewrite extension_of_suffix by done.
  rewrite bool_decide_eq_true_2 by done. simpl.
  assert ((maxFileSize <? sz)%N = false) as ->; [|done].
  apply N.ltb_ge. exact Hsz.
Qed.

Lemma validateFile_accepts_supported_suffix_witness :
  validateFile (mkFile ("Week 3.final" ++ String "."%char "PDF") 1024) = None.
Proof.
  apply validateFile_accepts_supported_suffix.
  - reflexivity.
  - vm_compute. apply list_elem_of_here.
  - vm_compute. discriminate.
Defined.

Lemma lower_char_idemp c : lower_char (lower_char c) = lower_char c.
Proof. destruct c as [[] [] [] [] [] [] [] []]; reflexivity. Qed.

Lemma lower_char_dot c : Ascii.eqb (lower_char c) "." = Ascii.eqb c ".".
Proof. destruct c as [[] [] [] [] [] [] [] []]; reflexivity. Qed.

Lemma toLowerCase_idemp s : toLowerCase (toLowerCase s) = toLowerCase s.
Proof.
  induction s as [|c s IH]; simpl; [done|]. by rewrite lower_char_idemp, IH.
Qed.

Lemma toLowerCase_app (a b : string) :
  toLowerCase (a ++ b) = toLowerCase a ++ toLowerCase b.
Proof.
  induction a as [|c a IH]; rewrite ?append_String, ?append_empty_l; simpl; [done|].
  by rewrite IH, append_String.
Qed.

Lemma split_go_toLowerCase (s cur : string) :
  split_go "."%char (toLowerCase cur) (toLowerCase s) =
  toLowerCase <$> split_go "."%char cur s.
Proof.
  revert cur. induction s as [|c s IH]; intros cur; simpl; [done|].
  rewrite lower_char_dot. destruct (Ascii.eqb c ".").
  - rewrite fmap_cons. f_equal. apply (IH EmptyString).
  - rewrite <- IH. by rewrite toLowerCase_app.
Qed.

Lemma extension_toLowerCase (n : string) (sz sz' : N) :
  extension (mkFile (toLowerCase n) sz) = extension (mkFile n sz').
Proof.
  unfold extension, pop, split. cbn [name].
  pose proof (split_go_toLowerCase n EmptyString) as Hsplit.
  cbn [toLowerCase] in Hsplit. rewrite Hsplit, fmap_last.
  destruct (last (split_go "." EmptyString n)) as [seg|]; simpl; [|done].
  by rewrite toLowerCase_idemp.
Qed.

(** X15: validation does not look at the letter case of the name: a file
    and the file of the same size whose name has the letters [A]-[Z] put
    in lower case are both accepted or both rejected; when the name is
    all ASCII they get the same verdict, error text included. *)
Theorem validateFile_ignores_case (n : string) (sz : N) :
  (is_Some (validateFile (mkFile (toLowerCase n) sz))
   ↔ is_Some (validateFile (mkFile n sz)))
  ∧ (ascii_only n = true →
     validateFile (mkFile (toLowerCase n) sz) = validateFile (mkFile n sz)).
Proof.
  assert (validateFile (mkFile (toLowerCase n) sz) = validateFile (mkFile n sz)) as Heq
    by (unfold validateFile; by rewrite (extension_toLowerCase n sz sz)).
  split; [by rewrite Heq|done].
Qed.

Lemma validateFile_ignores_case_witness :
  ascii_only "Setup.EXE" = true
  ∧ validateFile (mkFile (toLowerCase "Setup.EXE") 10) =
      validateFile (mkFile "Setup.EXE" 10)
  ∧ is_Some (validateFile (mkFile "Setup.EXE" 10)).
Proof.
  split; [reflexivity|]. split.
  - apply (proj2 (validateFile_ignores_case "Setup.EXE" 10)). reflexivity.
  - vm_compute. eauto.
Defined.


Lemma dot_types_elem_of (seg : string) :
  seg ∈ imageTypes ↔
  "." ++ seg ∈ [".jpg"; ".jpeg"; ".png"; ".gif"; ".bmp"; ".tiff"; ".webp"].
Proof.
  unfold imageTypes. rewrite !elem_of_cons, !elem_of_nil.
  rewrite !append_String, !append_empty_l.
  split; intros H; repeat (destruct H as [H|H]); try done;
    first [subst seg; auto 10 | injection H as ->; auto 10].
Qed.

(** X17: the image icon goes with the extension validation computes: a
    name gets the image icon exactly when its extension is one of the
    seven image types, and every name with the image icon has a supported
    extension. *)
Theorem getFileIcon_agrees_with_extension (n : string) (sz : N) :
  (getFileIcon n = ImageIcon ↔
     extension (mkFile n sz) ∈ [".jpg"; ".jpeg"; ".png"; ".gif"; ".bmp"; ".tiff"; ".webp"])
  ∧ (getFileIcon n = ImageIcon → extension (mkFile n sz) ∈ allowedTypes).
Proof.
  destruct (extension_last_segment (mkFile n sz)) as (seg & Hseg & Hext).
  cbn [name] in Hseg.
  assert (getFileIcon n = ImageIcon ↔
     extension (mkFile n sz) ∈ [".jpg"; ".jpeg"; ".png"; ".gif"; ".bmp"; ".tiff"; ".webp"])
    as Hiff.
  { unfold getFileIcon. rewrite Hseg, Hext. simpl.
    rewrite <- dot_types_elem_of. case_bool_decide; split; try done. }
  split; [exact Hiff|]. intros Hi. apply Hiff in Hi. unfold allowedTypes.
  rewrite !elem_of_cons in Hi. rewrite !elem_of_cons. tauto.
Qed.

End ValidationExtras.

(** ** The course card: uploads, the upload list and the file count *)

Section CardExtras.
Import JsString Upload CardState.
Variable courseId : string.
Variable response_ok : File → bool.

Abbreviation handleFileUpload := (Upload.handleFileUpload courseId response_ok).
Abbreviation card_step := (CardState.card_step courseId response_ok).

(** The number of accepted files whose upload succeeds. *)
Abbreviation successes :=
  (λ files : list File, length (filter (λ f, response_ok f = true) (validFiles files))).

Lemma uploaded_files_requests (l : list File) :
  uploaded_files (fst <$> (uploadSingleFile courseId response_ok <$> l)) = l.
Proof.
  unfold uploaded_files. induction l as [|f l IH]; [done|].
  rewrite !fmap_cons. cbn [omap list_omap fst uploadSingleFile]. by f_equal.
Qed.

Lemma successCount_successes (l : list File) :
  length (filter (λ r : Effect * bool, r.2 = true)
            (uploadSingleFile courseId response_ok <$> l))
  = length (filter (λ f, response_ok f = true) l).
Proof.
  induction l as [|f l IH]; [done|]. rewrite fmap_cons, !length_filter_cons, IH.
  unfold uploadSingleFile at 1. simpl. by repeat case_decide.
Qed.

(** What a run of [handleFileUpload] does, effect by effect. *)
Lemma handleFileUpload_effects (count : nat) (files : list File) :
  ∃ errors,
    (∀ e, e ∈ errors → ∃ msg, e = toast_error msg)
    ∧ (errors = [] ↔ invalidFiles files = [])
    ∧ handleFileUpload count files =
        if decide (0 < successes files)
        then (errors ++ (fetch_upload courseId <$> validFiles files)
                ++ [toast_success ("Successfully uploaded " ++ pretty (successes files)
                                   ++ " file"
                                   ++ (if decide (1 < successes files) then "s"
                                       else EmptyString));
                    onFileCountUpdate courseId (count + successes files)],
              count + successes files)%list
        else ((errors ++ (fetch_upload courseId <$> validFiles files))%list, count).
Proof.
  unfold Upload.handleFileUpload.
  set (errors := match invalidFiles files with [] => [] | _ => _ end).
  exists errors. split; [|split].
  - intros e He. subst errors. destruct (invalidFiles files); [by apply elem_of_nil in He|].
    apply list_elem_of_singleton in He as ->. eauto.
  - subst errors. by destruct (invalidFiles files).
  - assert (fst <$> (uploadSingleFile courseId response_ok <$> validFiles files)
            = fetch_upload courseId <$> validFiles files) as Hreq.
    { rewrite <- list_fmap_compose. by apply list_fmap_ext. }
    destruct (validFiles files) as [|v vs] eqn:Ev.
    + simpl. by rewrite app_nil_r.
    + rewrite <- Ev in *. rewrite successCount_successes, Hreq. done.
Qed.





(** X19: the file count after a run is the count before it plus the number
    of accepted files whose upload succeeded; it is handed to the page
    ([onFileCountUpdate]) exactly when that number is positive, and then
    with that same count. *)
Theorem handleFileUpload_count (count : nat) (files : list File) :
  snd (handleFileUpload count files) = count + successes files
  ∧ count_update (fst (handleFileUpload count files)) =
      if decide (0 < successes files) then Some (count + successes files) else None.
Proof.
  destruct (handleFileUpload_effects count files) as (errors & Htoast & _ & Hrun).
  rewrite Hrun. unfold count_update.
  assert (omap (λ e, match e with onFileCountUpdate _ n => Some n | _ => None end) errors
          = []) as He.
  { clear Hrun. induction errors as [|e errors IH]; [done|].
    destruct (Htoast e (list_elem_of_here _ _)) as [msg ->]. cbn [omap list_omap].
    apply IH. intros e' He'. apply Htoast. by apply list_elem_of_further. }
  assert (∀ l : list File,
            omap (λ e, match e with onFileCountUpdate _ n => Some n | _ => None end)
                 (fetch_upload courseId <$> l) = []) as Hf.
  { induction l as [|f l IH]; [done|]. rewrite fmap_cons. cbn [omap list_omap]. done. }
  case_decide; cbn [fst snd]; rewrite !omap_app, He, Hf; simpl; split; try done; lia.
Qed.

Lemma card_step_count (a : CardAction) (card : Card) :
  initialFileCount (snd (card_step a card)) = initialFileCount card
  ∧ currentFileCount (snd (card_step a card)) =
      match a with
      | drop files =>
          if decide (0 < successes files) then initialFileCount card + successes files
          else currentFileCount card
      | pick files => currentFileCount card + successes files
      end.
Proof.
  unfold CardState.card_step.
  destruct a as [files|files]; (destruct files as [|f files]; [simpl; split; [done|]; lia|]);
    cbn [snd initialFileCount currentFileCount];
    rewrite (proj2 (handleFileUpload_count _ _)); (split; [done|]);
    case_decide; simpl; lia.
Qed.

(** X20: [handleDrop] is memoised with an empty dependency list, so a drop
    counts from the card's first render: after a drop with at least one
    successful upload the card shows the initial count plus the successes
    of that drop, whatever earlier drops added; files picked through the
    input add to the count shown. *)
Theorem drop_counts_from_first_render (card : Card) (files1 files2 : list File) :
  0 < successes files2 →
  let card1 := snd (card_step (drop files1) card) in
  currentFileCount (snd (card_step (drop files2) card1)) =
    initialFileCount card + successes files2
  ∧ currentFileCount (snd (card_step (pick files2) card1)) =
    currentFileCount card1 + successes files2.
Proof.
  intros Hpos card1.
  destruct (card_step_count (drop files1) card) as [Hinit _].
  destruct (card_step_count (drop files2) card1) as [_ Hd].
  destruct (card_step_count (pick files2) card1) as [_ Hp].
  rewrite Hd, Hp. fold card1 in Hinit. rewrite decide_True, Hinit by done. done.
Qed.

End CardExtras.

Lemma drop_counts_from_first_render_witness :
  let card := CardState.mkCard 2 2 in
  let one := [Upload.mkFile "a.pdf" 10] in
  let card1 := snd (CardState.card_step "cs101" (λ _, true) (CardState.drop one) card) in
  CardState.currentFileCount card1 = 3
  ∧ CardState.currentFileCount
      (snd (CardState.card_step "cs101" (λ _, true) (CardState.drop one) card1)) = 3
  ∧ CardState.currentFileCount
      (snd (CardState.card_step "cs101" (λ _, true) (CardState.pick one) card1)) = 4.
Proof.
  intros card one card1.
  assert (0 < length (filter (λ f, (λ _ : Upload.File, true) f = true)
                        (Upload.validFiles one))) as Hpos by (vm_compute; lia).
  destruct (drop_counts_from_first_render "cs101" (λ _, true) card one one Hpos)
    as [Hd Hp].
  split; [reflexivity|]. split; [exact Hd | exact Hp].
Defined.

(** ** The upload list of the card *)

Section UploadListExtras.
Import JsString Upload CardState.
Variable fetch_result : File → FetchResult.

(** The entry of [uploadFile] once its upload is over. *)
Abbreviation settled :=
  (λ uploadFile : UploadFile, finished (fetch_result (uf_file uploadFile)) (started uploadFile)).

Lemma update_entries_twice (i : string) (g h : UploadFile → UploadFile)
    (l : list UploadFile) :
  (∀ f, uf_id (h f) = uf_id f) →
  update_entries i g (update_entries i h l) = update_entries i (g ∘ h) l.
Proof.
  intros Hid. unfold update_entries. rewrite <- list_fmap_compose.
  apply list_fmap_ext. intros _ f _. simpl.
  destruct (decide (uf_id f = i)) as [E|E].
  - by rewrite decide_True by (by rewrite Hid).
  - by rewrite decide_False by done.
Qed.

Lemma update_entries_other (i : string) (g : UploadFile → UploadFile)
    (l : list UploadFile) :
  i ∉ uf_id <$> l → update_entries i g l = l.
Proof.
  intros Hnot. unfold update_entries. rewrite <- (list_fmap_id l) at 2.
  apply list_fmap_ext. intros k f Hk. simpl. case_decide as E; [|done].
  exfalso. apply Hnot. apply list_elem_of_fmap. exists f. split; [done|].
  by apply list_elem_of_lookup_2 in Hk.
Qed.

Lemma update_entries_app (i : string) (g : UploadFile → UploadFile)
    (l1 l2 : list UploadFile) :
  update_entries i g (l1 ++ l2)%list
  = (update_entries i g l1 ++ update_entries i g l2)%list.
Proof. unfold update_entries. apply fmap_app. Qed.

Lemma finished_id (r : FetchResult) (f : UploadFile) : uf_id (finished r f) = uf_id f.
Proof. by destruct r. Qed.

Lemma settled_ids (l : list UploadFile) : uf_id <$> (settled <$> l) = uf_id <$> l.
Proof.
  rewrite <- list_fmap_compose. apply list_fmap_ext. intros _ f _. simpl.
  by rewrite finished_id.
Qed.

Lemma settled_status (f : UploadFile) :
  uf_status (settled f) = if is_ok (fetch_result (uf_file f)) then success else error.
Proof. simpl. by destruct (fetch_result (uf_file f)). Qed.

Lemma upload_loop_settles (todo done_ : list UploadFile) (n : nat) :
  NoDup (uf_id <$> (done_ ++ todo)%list) →
  upload_loop fetch_result todo ((settled <$> done_) ++ todo)%list n
  = ((settled <$> (done_ ++ todo))%list,
     n + length (filter (λ u, is_ok (fetch_result (uf_file u)) = true) todo)).
Proof.
  revert done_ n. induction todo as [|u rest IH]; intros done_ n Hnd.
  - simpl. rewrite !app_nil_r. f_equal. lia.
  - cbn [upload_loop]. unfold uploadSingleFile_state.
    rewrite update_entries_twice by done.
    rewrite fmap_app, fmap_cons in Hnd.
    apply NoDup_app in Hnd as (Hd & Hdisj & Hrest).
    apply NoDup_cons in Hrest as [Hu Hrest'].
    rewrite update_entries_app.
    rewrite update_entries_other
      by (rewrite settled_ids; intros Hin; apply (Hdisj _ Hin), list_elem_of_here).
    change (u :: rest) with ([u] ++ rest)%list at 1. rewrite update_entries_app.
    rewrite (update_entries_other _ _ rest) by done.
    unfold update_entries at 1. cbn [fmap list_fmap]. rewrite decide_True by done.
    change ((finished (fetch_result (uf_file u)) ∘ started) u) with (settled u).
    replace ((settled <$> done_) ++ [settled u] ++ rest)%list
      with ((settled <$> (done_ ++ [u])) ++ rest)%list
      by (rewrite fmap_app; cbn [fmap list_fmap]; by rewrite <- app_assoc).
    rewrite IH.
    + rewrite <- app_assoc. cbn [app]. f_equal. rewrite length_filter_cons.
      destruct (is_ok (fetch_result (uf_file u))); case_decide; try done; lia.
    + rewrite <- app_assoc. cbn [app]. rewrite fmap_app, fmap_cons.
      apply NoDup_app. split; [done|]. split; [done|]. by apply NoDup_cons.
Qed.

(** X21: when the entries of a run have distinct ids, the upload loop
    leaves each of them settled by its own response (success at progress
    100, or error with a message), in the order of the run; none is left
    uploading, and [successCount] is the number of entries shown as
    success. *)
Theorem run_uploads_settles_each_entry (uploadFileObjects : list UploadFile) :
  NoDup (uf_id <$> uploadFileObjects) →
  let final := fst (run_uploads fetch_result uploadFileObjects) in
  let successCount := snd (run_uploads fetch_result uploadFileObjects) in
  final = settled <$> uploadFileObjects
  ∧ Forall (λ u, uf_status u ≠ uploading) final
  ∧ successCount = length (filter (λ u, uf_status u = success) final).
Proof.
  intros Hnd. unfold run_uploads.
  pose proof (upload_loop_settles uploadFileObjects [] 0 Hnd) as Hloop.
  cbn [fmap list_fmap app] in Hloop. rewrite Hloop. cbn [fst snd].
  split; [done|]. split.
  - apply Forall_fmap, Forall_forall. intros u _. unfold compose.
    rewrite settled_status. by destruct (is_ok _).
  - clear. induction uploadFileObjects as [|u l IH]; [done|].
    rewrite fmap_cons, !length_filter_cons. simpl in IH. rewrite IH.
    rewrite settled_status.
    destruct (is_ok (fetch_result (uf_file u))); repeat case_decide; done.
Qed.

End UploadListExtras.

Lemma run_uploads_settles_each_entry_witness :
  let fetch_result := λ f : Upload.File,
    if (Upload.size f <? 100)%N then CardState.resp_ok
    else CardState.resp_not_ok (Some "File too large") in
  let objs := CardState.uploadFileObjects ["1-0.25"; "1-0.75"]
                [Upload.mkFile "a.pdf" 10; Upload.mkFile "b.pdf" 500] in
  NoDup (CardState.uf_id <$> objs)
  ∧ CardState.uf_status <$> fst (CardState.run_uploads fetch_result objs)
    = [CardState.success; CardState.error]
  ∧ CardState.uf_error <$> fst (CardState.run_uploads fetch_result objs)
    = [None; Some "File too large"]
  ∧ snd (CardState.run_uploads fetch_result objs) = 1.
Proof.
  intros fetch_result objs.
  assert (NoDup (CardState.uf_id <$> objs)) as Hnd
    by (apply (bool_decide_unpack _); vm_compute; exact I).
  destruct (run_uploads_settles_each_entry fetch_result objs Hnd) as (Hfinal & _ & Hcount).
  split; [exact Hnd|]. rewrite Hcount, Hfinal. by vm_compute.
Defined.

(** ** The page and the card *)

Section PageExtras.
Import JsString Upload CardState HomePage.
Variable courseId : string.
Variable response_ok : File → bool.

Lemma after_effects_app (e1 e2 : list Effect) (courses : list Course) :
  after_effects (e1 ++ e2)%list courses = after_effects e2 (after_effects e1 courses).
Proof. unfold after_effects. apply foldl_app. Qed.

Lemma after_effects_toasts (errors : list Effect) (courses : list Course) :
  (∀ e, e ∈ errors → ∃ msg, e = toast_error msg) → after_effects errors courses = courses.
Proof.
  induction errors as [|e errors IH]; intros Hall; [done|].
  destruct (Hall e (list_elem_of_here _ _)) as [msg ->]. cbn [after_effects foldl].
  apply IH. intros e' He'. apply Hall. by apply list_elem_of_further.
Qed.

Lemma after_effects_fetch (c : string) (l : list File) (courses : list Course) :
  after_effects (fetch_upload c <$> l) courses = courses.
Proof. induction l as [|f l IH]; [done|]. rewrite fmap_cons. exact IH. Qed.

Lemma after_handleFileUpload (count : nat) (files : list File) (courses : list Course) :
  after_effects (fst (handleFileUpload courseId response_ok count files)) courses
  = if decide (0 < length (filter (λ f, response_ok f = true) (validFiles files)))
    then handleFileCountUpdate courseId
           (snd (handleFileUpload courseId response_ok count files)) courses
    else courses.
Proof.
  rewrite (proj1 (handleFileUpload_count courseId response_ok count files)).
  destruct (handleFileUpload_effects courseId response_ok count files)
    as (errors & Htoast & _ & Hrun).
  rewrite Hrun. case_decide; cbn [fst];
    rewrite !after_effects_app, (after_effects_toasts errors), after_effects_fetch by done;
    done.
Qed.

(** X22: after a run with at least one successful upload the page shows,
    for every course with the card's id, the count the card computed; the
    courses keep their ids and order, and every other course is left as it
    was. *)
Theorem page_follows_card_count (count : nat) (files : list File)
    (courses : list Course) :
  0 < length (filter (λ f, response_ok f = true) (validFiles files)) →
  let after :=
    after_effects (fst (handleFileUpload courseId response_ok count files)) courses in
  HomePage.id <$> after = HomePage.id <$> courses
  ∧ filter (λ c, HomePage.id c ≠ courseId) after
    = filter (λ c, HomePage.id c ≠ courseId) courses
  ∧ Forall (λ c, HomePage.id c = courseId →
                 fileCount c = snd (handleFileUpload courseId response_ok count files))
      after.
Proof.
  intros Hpos after. subst after. rewrite after_handleFileUpload, decide_True by done.
  set (n := snd _). clearbody n. unfold handleFileCountUpdate.
  split; [|split].
  - rewrite <- list_fmap_compose. apply list_fmap_ext. intros _ c _. simpl.
    by case_decide.
  - induction courses as [|c cs IH]; [done|]. rewrite fmap_cons, !filter_cons, IH.
    destruct (decide (HomePage.id c = courseId)) as [E|E].
    + rewrite !decide_False; [done|simpl; by intros ?..].
    + by rewrite !decide_True.
  - apply Forall_fmap, Forall_forall. intros c _. unfold compose.
    by case_decide.
Qed.

(** X23: a run in which no upload succeeds tells the page nothing: the
    course list is left as it was. *)
Theorem page_unchanged_without_success (count : nat) (files : list File)
    (courses : list Course) :
  length (filter (λ f, response_ok f = true) (validFiles files)) = 0 →
  after_effects (fst (handleFileUpload courseId response_ok count files)) courses
  = courses.
Proof. intros Hzero. rewrite after_handleFileUpload, decide_False; [done|lia]. Qed.

End PageExtras.

Lemma page_follows_card_count_witness :
  let courses := [HomePage.mkCourse "cs101" "Algorithms" "CS101" 2 4;
                  HomePage.mkCourse "ma201" "Analysis" "MA201" 7 3] in
  let run := Upload.handleFileUpload "cs101" (λ _, true) 2 [Upload.mkFile "a.pdf" 10] in
  let after := HomePage.after_effects (fst run) courses in
  HomePage.id <$> after = HomePage.id <$> courses
  ∧ filter (λ c, HomePage.id c ≠ "cs101") after
    = filter (λ c, HomePage.id c ≠ "cs101") courses
  ∧ Forall (λ c, HomePage.id c = "cs101" → HomePage.fileCount c = snd run) after.
Proof.
  intros courses run after.
  apply (page_follows_card_count "cs101" (λ _, true) 2 [Upload.mkFile "a.pdf" 10] courses).
  vm_compute. lia.
Defined.

Lemma page_unchanged_without_success_witness :
  let courses := [HomePage.mkCourse "cs101" "Algorithms" "CS101" 2 4] in
  HomePage.after_effects
    (fst (Upload.handleFileUpload "cs101" (λ _, false) 2 [Upload.mkFile "a.pdf" 10]))
    courses
  = courses.
Proof.
  intros courses.
  apply (page_unchanged_without_success "cs101" (λ _, false) 2
           [Upload.mkFile "a.pdf" 10] courses).
  by vm_compute.
Defined.

(** ** The upload route between the card and the backend *)

Section RouteExtras.
Import CardState UploadRoute.

Lemma ok_500 : ok 500 = false.
Proof. reflexivity. Qed.

Lemma ok_200 : ok 200 = true.
Proof. reflexivity. Qed.

(** X24: the card sees a successful upload exactly when the backend
    answered with a status in 200..299 and a JSON body; a backend refusal
    is shown with the backend's own [detail], and a failure of the route
    itself (no connection to the backend, or a body that is not JSON) is
    shown as the card's default text, not as a network error and not with
    the route's own message. *)
Theorem card_sees_backend_outcome (backend : option BackendResponse) (u : UploadFile) :
  (card_sees (POST backend) = resp_ok
   ↔ ∃ status data, backend = Some (mkBackendResponse status (Some data))
                    ∧ ok status = true)
  ∧ (∀ status data d,
       backend = Some (mkBackendResponse status (Some data)) →
       ok status = false → data !! "detail" = Some d → d ≠ EmptyString →
       uf_status (finished (card_sees (POST backend)) u) = error
       ∧ uf_error (finished (card_sees (POST backend)) u) = Some d)
  ∧ ((backend = None ∨ ∃ status, backend = Some (mkBackendResponse status None)) →
     rr_status (POST backend) = 500
     ∧ uf_status (finished (card_sees (POST backend)) u) = error
     ∧ uf_error (finished (card_sees (POST backend)) u) = Some "Upload failed").
Proof.
  split; [|split].
  - unfold POST, card_sees. destruct backend as [[status [data|]]|]; cbn [br_body br_status].
    + destruct (ok status) eqn:E; cbn [rr_status]; rewrite ?ok_200, ?E.
      * split; [eauto|done].
      * split; [done|]. intros (s & d & [= -> ->] & Hok). congruence.
    + cbn [rr_status]. rewrite ok_500. split; [done|]. by intros (? & ? & [=] & _).
    + cbn [rr_status]. rewrite ok_500. split; [done|]. by intros (? & ? & [=] & _).
  - intros status data d -> Hnot Hd Hne. unfold POST, card_sees.
    cbn [br_body br_status]. rewrite Hnot. cbn [rr_status rr_body]. rewrite Hnot, Hd.
    cbn [finished uf_status uf_error]. split; [done|].
    destruct (String.eqb d EmptyString) eqn:E; [|done].
    by apply String.eqb_eq in E.
  - intros [->|[status ->]]; unfold POST, card_sees; cbn [br_body rr_status rr_body];
      rewrite ok_500; done.
Qed.

End RouteExtras.

(** ** The chat of the course page *)

Section ChatExtras.
Import JsString Chat ChatRequest.

Lemma handleSendMessage_input (now : N) (o : Outcome)
    (during : option (list Message)) (st : State) :
  blank (inputValue st) || isLoading st = false →
  inputValue (handleSendMessage now o during st) = EmptyString.
Proof.
  intros Hg. unfold handleSendMessage, send_begin. rewrite Hg.
  by destruct o, during.
Qed.

(** X25: a send leaves the input empty, so submitting again before
    anything is typed changes nothing: no second message is added and no
    message is removed, whatever the second request would have answered
    and whether or not the history arrives meanwhile. *)
Theorem resend_without_typing_is_ignored (now now' : N) (o o' : Outcome)
    (during during' : option (list Message)) (st : State) :
  handleSendMessage now' o' during' (handleSendMessage now o during st)
  = handleSendMessage now o during st.
Proof.
  destruct (blank (inputValue st) || isLoading st) eqn:Hg.
  - assert (handleSendMessage now o during st = st) as ->
      by (unfold handleSendMessage, send_begin; by rewrite Hg).
    unfold handleSendMessage, send_begin. by rewrite Hg.
  - pose proof (handleSendMessage_input now o during st Hg) as Hin.
    unfold handleSendMessage at 1. unfold send_begin. by rewrite Hin.
Qed.

(** X26: the session id sent with a request is the id of the oldest
    message of the transcript. When the history does not arrive during
    the request and no message of the transcript carries the id given to
    the new user message, an exchange leaves it as it is once the
    transcript is not empty; the first request of an empty transcript
    carries none, and the request after its answer carries the id of the
    first user message. *)
Theorem session_id_after_exchange (now : N) (o : Outcome) (text : string) (st : State) :
  sendable st →
  (∀ m, m ∈ messages st → id m ≠ toString now) →
  session_id (request_body (typing text (handleSendMessage now o None st)))
  = match session_id (request_body st), o with
    | Some sid, _ => Some sid
    | None, Answered _ _ _ => Some (toString now)
    | None, Failed => None
    end.
Proof.
  intros [Hb Hl] Hfresh. unfold handleSendMessage, send_begin. rewrite Hb, Hl.
  cbn [orb]. unfold request_body, typing. cbn [session_id messages loadChatHistory].
  destruct o as [response srcs t|]; cbn [send_end messages].
  - destruct (messages st) as [|m ms]; done.
  - rewrite filter_app, filter_cons_False, filter_nil, app_nil_r
      by (simpl; intros Hne; by apply Hne).
    rewrite filter_id_fresh by done. by destruct (messages st).
Qed.

End ChatExtras.

Lemma session_id_after_exchange_witness :
  ChatRequest.session_id
    (ChatRequest.request_body
       (Chat.typing "and then?"
          (Chat.handleSendMessage 2000 Chat.Failed None Examples.chat1)))
  = Some "400".
Proof.
  apply (session_id_after_exchange 2000 Chat.Failed "and then?" Examples.chat1).
  - split; reflexivity.
  - intros m Hm. vm_compute in Hm.
    apply elem_of_cons in Hm as [-> | Hm]; [discriminate|].
    apply elem_of_cons in Hm as [-> | Hm]; [discriminate|].
    by apply elem_of_nil in Hm.
Defined.
